(** * Flash-sale system: the three purchase strategies, the admin handlers
      and the dashboard's load harness, embedded from the Go and TypeScript
      sources, with the properties of the design document checked on them.

    Layout
    - integers and the data model (ledger rows, orders, cache, counters);
    - the operations a handler can issue, and handlers as programs over them;
    - the handlers of [handlers] (purchase.go) and of [cmd/api/main.go];
    - the meaning of each operation on the shared world;
    - running one handler alone, and running many interleaved;
    - the dashboard's [runBatch] and the one-shot attack script;
    - lemmas and the checked properties. *)

From stdpp Require Import gmap strings list fin_maps.
From Stdlib Require Import ZArith Lia.

Local Open Scope Z_scope.

(** ** Integers *)

(** PostgreSQL [INT] columns and parameters are 32-bit signed. *)
Definition int4_min : Z := -2147483648.
Definition int4_max : Z := 2147483647.
Definition in_int4 (z : Z) : bool := (int4_min <=? z) && (z <=? int4_max).

(** Go's [int64] arithmetic wraps around. *)
Definition wrap64 (z : Z) : Z := (z + 2 ^ 63) mod 2 ^ 64 - 2 ^ 63.

(** ** Data model *)

(** [PurchaseRequest] of purchase.go. *)
Record PurchaseRequest := { UserID : Z; ProductID : Z }.

(** A row of [products]: the handlers read and write [quantity] only (name and
    price are written once by the seed).  [xlock] is the transaction, named by
    the request that opened it, holding the row's exclusive lock. *)
Record Row := { quantity : Z; xlock : option nat }.

(** A row of [orders] ([id] and [created_at] are filled in by the database
    and never read back by the code under study). *)
Record Order := { user_id : Z; product_id : Z; status : string }.

(** The five process-wide counters of purchase.go. *)
Inductive Counter :=
  TotalRequests | SuccessCount | FailCount | OversellCount | TotalLatencyMs.

#[global] Instance Counter_eq_dec : EqDecision Counter.
Proof. solve_decision. Defined.

Record Stats := {
  total_requests : Z; success : Z; failed : Z; oversells : Z; total_latency_ms : Z }.

Definition load (c : Counter) (s : Stats) : Z :=
  match c with
  | TotalRequests => total_requests s
  | SuccessCount => success s
  | FailCount => failed s
  | OversellCount => oversells s
  | TotalLatencyMs => total_latency_ms s
  end.

Definition store (c : Counter) (v : Z) (s : Stats) : Stats :=
  match c with
  | TotalRequests =>
      {| total_requests := v; success := success s; failed := failed s;
         oversells := oversells s; total_latency_ms := total_latency_ms s |}
  | SuccessCount =>
      {| total_requests := total_requests s; success := v; failed := failed s;
         oversells := oversells s; total_latency_ms := total_latency_ms s |}
  | FailCount =>
      {| total_requests := total_requests s; success := success s; failed := v;
         oversells := oversells s; total_latency_ms := total_latency_ms s |}
  | OversellCount =>
      {| total_requests := total_requests s; success := success s; failed := failed s;
         oversells := v; total_latency_ms := total_latency_ms s |}
  | TotalLatencyMs =>
      {| total_requests := total_requests s; success := success s; failed := failed s;
         oversells := oversells s; total_latency_ms := v |}
  end.

(** Go zero-initialises package variables. *)
Definition zero_stats : Stats :=
  {| total_requests := 0; success := 0; failed := 0; oversells := 0;
     total_latency_ms := 0 |}.

(** An open transaction: the rows it has written (its private new quantity),
    the orders it has inserted, and whether it has deleted the committed
    orders.  Nothing of it is visible to others before commit. *)
Record Tx := { tx_rows : gmap Z Z; tx_orders : list Order; tx_cleared : bool }.

Definition empty_tx : Tx := {| tx_rows := ∅; tx_orders := []; tx_cleared := false |}.

(** The shared world: the committed ledger (PostgreSQL), the open
    transactions, the Redis keyspace and the counters. *)
Record World := {
  products : gmap Z Row;
  orders : list Order;
  txs : gmap nat Tx;
  rdb : gmap string Z;
  stats : Stats }.

Definition set_products (f : gmap Z Row → gmap Z Row) (w : World) : World :=
  {| products := f (products w); orders := orders w; txs := txs w;
     rdb := rdb w; stats := stats w |}.
Definition set_orders (f : list Order → list Order) (w : World) : World :=
  {| products := products w; orders := f (orders w); txs := txs w;
     rdb := rdb w; stats := stats w |}.
Definition set_txs (f : gmap nat Tx → gmap nat Tx) (w : World) : World :=
  {| products := products w; orders := orders w; txs := f (txs w);
     rdb := rdb w; stats := stats w |}.
Definition set_rdb (f : gmap string Z → gmap string Z) (w : World) : World :=
  {| products := products w; orders := orders w; txs := txs w;
     rdb := f (rdb w); stats := stats w |}.
Definition set_stats (f : Stats → Stats) (w : World) : World :=
  {| products := products w; orders := orders w; txs := txs w;
     rdb := rdb w; stats := f (stats w) |}.

(** ** Operations and programs *)

(** Go's [error] results: [nil] or some failure. *)
Inductive error := nil | Failed.

Definition is_err (e : error) : bool :=
  match e with nil => false | Failed => true end.

#[global] Instance error_eq_dec : EqDecision error.
Proof. solve_decision. Defined.

(** The SQL texts that occur in the sources, with their parameters. *)
Inductive query :=
  | SelectQuantity (id : Z)          (* SELECT quantity FROM products WHERE id=$1 *)
  | SelectQuantityForUpdate (id : Z) (* ... WHERE id=$1 FOR UPDATE *)
  | SelectCountOrders.               (* SELECT COUNT( * ) FROM orders *)

Inductive command :=
  | UpdateDecrement (id : Z)         (* UPDATE products SET quantity = quantity - 1 WHERE id=$1 *)
  | UpdateSetQuantity (v id : Z)     (* UPDATE products SET quantity = v WHERE id = id *)
  | InsertOrder (uid pid : Z)        (* INSERT INTO orders (user_id, product_id, status)
                                        VALUES ($1, $2, 'success') *)
  | DeleteOrders.                    (* DELETE FROM orders *)

(** A Lua script run by [EVAL]: from the keys and the keyspace to a reply and
    the new keyspace, in one indivisible step of the Redis server. *)
Definition Script : Type := list string → gmap string Z → (Z * error) * gmap string Z.

(** What a handler can ask of its environment.  Every constructor is one
    call of the Go source; the index is the type of what the call returns. *)
Inductive Op : Type → Type :=
  | AddInt64 (c : Counter) (delta : Z) : Op unit      (* atomic.AddInt64 *)
  | LoadInt64 (c : Counter) : Op Z                    (* atomic.LoadInt64 *)
  | StoreInt64 (c : Counter) (v : Z) : Op unit        (* atomic.StoreInt64 *)
  | Since : Op Z                                      (* time.Since(start).Milliseconds() *)
  | Sleep (ms : Z) : Op unit                          (* time.Sleep *)
  | DB_QueryRow (q : query) : Op (Z * error)          (* database.DB.QueryRow(..).Scan(&v) *)
  | DB_Exec (c : command) : Op error                  (* database.DB.Exec *)
  | DB_Begin : Op error                               (* database.DB.Begin *)
  | Tx_QueryRow (q : query) : Op (Z * error)          (* tx.QueryRow(..).Scan(&v) *)
  | Tx_Exec (c : command) : Op error                  (* tx.Exec *)
  | Tx_Commit : Op error                              (* tx.Commit *)
  | Tx_Rollback : Op error                            (* tx.Rollback *)
  | Rdb_Eval (s : Script) (keys : list string) : Op (Z * error)  (* Rdb.Eval(..).Int64() *)
  | Rdb_Incr (key : string) : Op (Z * error)          (* Rdb.Incr *)
  | Rdb_Set (key : string) (v : Z) : Op error         (* Rdb.Set(..).Err() *)
  | Rdb_Get (key : string) : Op (Z * error).          (* Rdb.Get(..).Int() *)

(** A handler is a finite tree of operations ending in its result. *)
Inductive prog (R : Type) : Type :=
  | Ret (r : R)
  | Vis {X : Type} (e : Op X) (k : X → prog R).
Arguments Ret {R} r.
Arguments Vis {R X} e k.

Fixpoint prog_bind {A B : Type} (f : A → prog B) (p : prog A) : prog B :=
  match p with
  | Ret r => f r
  | Vis e k => Vis e (λ x, prog_bind f (k x))
  end.

#[global] Instance prog_mret : MRet prog := @Ret.
#[global] Instance prog_mbind : MBind prog := @prog_bind.

Definition call {X : Type} (e : Op X) : prog X := Vis e Ret.

(** [defer cleanup] followed by a body: the cleanup runs when the body
    returns, whatever path it took. *)
Definition defer {X R : Type} (cleanup : prog X) (body : prog R) : prog R :=
  r ← body; cleanup;; mret r.

(** ** HTTP responses *)

Inductive Body :=
  | JError (msg : string)                       (* gin.H{"error": msg} *)
  | JPurchase (mode : string) (latency_ms : Z)  (* "Purchase successful!" *)
  | JMessage (msg : string)
  | JSynced (stock : Z)                         (* "Redis synced with PostgreSQL", stock *)
  | JStats (total success failed oversells : Z) (avg_latency : Z * Z)
           (db_stock redis_stock order_count : Z).

Record Response := { code : Z; body : Body }.

Definition JSON (status : Z) (b : Body) : Response := {| code := status; body := b |}.

Definition StatusOK : Z := 200.
Definition StatusBadRequest : Z := 400.
Definition StatusInternalServerError : Z := 500.

(** ** The handlers of purchase.go *)

(** The two lines every failing path of the purchase handlers ends with:
    [atomic.AddInt64(&FailCount, 1); c.JSON(status, gin.H{"error": msg})]. *)
Definition fail_with (status : Z) (msg : string) : prog Response :=
  call (AddInt64 FailCount 1);;
  mret (JSON status (JError msg)).

(** The last lines of every successful purchase. *)
Definition succeed (mode : string) : prog Response :=
  call (AddInt64 SuccessCount 1);;
  ms ← call Since;
  call (AddInt64 TotalLatencyMs ms);;
  ms' ← call Since;
  mret (JSON StatusOK (JPurchase mode ms')).

Definition ResetStats : prog unit :=
  call (StoreInt64 TotalRequests 0);;
  call (StoreInt64 SuccessCount 0);;
  call (StoreInt64 FailCount 0);;
  call (StoreInt64 OversellCount 0);;
  call (StoreInt64 TotalLatencyMs 0).

(** The snapshot: five separate atomic loads.  [avg_latency_ms] is a
    float64 quotient in the source; it is kept here as the pair
    (cumulative latency, total) it is computed from, (0, 1) for no request. *)
Definition GetStats : prog (Z * Z * Z * Z * (Z * Z)) :=
  total ← call (LoadInt64 TotalRequests);
  success ← call (LoadInt64 SuccessCount);
  fail ← call (LoadInt64 FailCount);
  oversell ← call (LoadInt64 OversellCount);
  latency ← call (LoadInt64 TotalLatencyMs);
  let avgLatency := if 0 <? total then (latency, total) else (0, 1) in
  mret (total, success, fail, oversell, avgLatency).

(** MODE 1: no protection.  The argument is the outcome of
    [c.ShouldBindJSON(&req)]: [None] when the body does not bind. *)
Definition PurchaseNaive (c : option PurchaseRequest) : prog Response :=
  call (AddInt64 TotalRequests 1);;
  match c with
  | None => fail_with StatusBadRequest "Invalid input"
  | Some req =>
      '(quantity, err) ← call (DB_QueryRow (SelectQuantity (ProductID req)));
      if is_err err then fail_with StatusInternalServerError "DB error" else
      if quantity <=? 0 then fail_with StatusBadRequest "Out of stock!" else
      call (Sleep 5);;
      err ← call (DB_Exec (UpdateDecrement (ProductID req)));
      if is_err err then fail_with StatusInternalServerError "Update failed" else
      err ← call (DB_Exec (InsertOrder (UserID req) (ProductID req)));
      if is_err err then fail_with StatusInternalServerError "Order failed" else
      succeed "naive"
  end.

(** MODE 2: pessimistic row lock. *)
Definition PurchasePostgresLock (c : option PurchaseRequest) : prog Response :=
  call (AddInt64 TotalRequests 1);;
  match c with
  | None => fail_with StatusBadRequest "Invalid input"
  | Some req =>
      err ← call DB_Begin;
      if is_err err then fail_with StatusInternalServerError "Transaction failed" else
      defer (call Tx_Rollback) (
        '(quantity, err) ← call (Tx_QueryRow (SelectQuantityForUpdate (ProductID req)));
        if is_err err then fail_with StatusInternalServerError "Lock failed" else
        if quantity <=? 0 then fail_with StatusBadRequest "Out of stock!" else
        err ← call (Tx_Exec (UpdateDecrement (ProductID req)));
        if is_err err then fail_with StatusInternalServerError "Update failed" else
        err ← call (Tx_Exec (InsertOrder (UserID req) (ProductID req)));
        if is_err err then fail_with StatusInternalServerError "Order failed" else
        err ← call Tx_Commit;
        if is_err err then fail_with StatusInternalServerError "Commit failed" else
        succeed "postgres_lock")
  end.

(** The gate of MODE 3, from its Lua text:
      local stock = redis.call('GET', KEYS[1])
      if stock == false then return -1 end
      stock = tonumber(stock)
      if stock <= 0 then return -1 end
      return redis.call('DECR', KEYS[1])
    The keyspace holds integers only (the code writes this key with SET of
    an int, DECR and INCR), so [tonumber] is the identity. *)
Definition luaScript : Script := λ KEYS db,
  match KEYS with
  | [] => ((0, Failed), db)
  | key :: _ =>
      match db !! key with
      | None => ((-1, nil), db)
      | Some stock =>
          if stock <=? 0 then ((-1, nil), db)
          else ((stock - 1, nil), <[key := stock - 1]> db)
      end
  end.

(** MODE 3: Redis gate, then PostgreSQL. *)
Definition PurchaseRedisPostgres (c : option PurchaseRequest) : prog Response :=
  call (AddInt64 TotalRequests 1);;
  match c with
  | None => fail_with StatusBadRequest "Invalid input"
  | Some req =>
      '(stock, err) ← call (Rdb_Eval luaScript ["product:1:stock"]);
      if is_err err then fail_with StatusInternalServerError "Redis error" else
      if stock <? 0 then fail_with StatusBadRequest "Out of stock!" else
      err ← call DB_Begin;
      if is_err err then
        call (Rdb_Incr "product:1:stock");;
        fail_with StatusInternalServerError "Transaction failed"
      else
      defer (call Tx_Rollback) (
        err ← call (Tx_Exec (UpdateDecrement (ProductID req)));
        if is_err err then
          call (Rdb_Incr "product:1:stock");;
          fail_with StatusInternalServerError "Update failed"
        else
        err ← call (Tx_Exec (InsertOrder (UserID req) (ProductID req)));
        if is_err err then
          call (Rdb_Incr "product:1:stock");;
          fail_with StatusInternalServerError "Order failed"
        else
        err ← call Tx_Commit;
        if is_err err then
          call (Rdb_Incr "product:1:stock");;
          fail_with StatusInternalServerError "Commit failed"
        else
        succeed "redis_postgres")
  end.

Definition PurchaseProduct (c : option PurchaseRequest) : prog Response :=
  PurchaseRedisPostgres c.

(** ** The handlers of cmd/api/main.go *)

(** GET /stats *)
Definition stats_handler : prog Response :=
  '(dbStock, _) ← call (DB_QueryRow (SelectQuantity 1));
  '(redisStock, _) ← call (Rdb_Get "product:1:stock");
  '(orderCount, _) ← call (DB_QueryRow SelectCountOrders);
  '(total, success, fail, oversell, avgLatency) ← GetStats;
  mret (JSON 200 (JStats total success fail oversell avgLatency
                         dbStock redisStock orderCount)).

(** POST /reset *)
Definition reset : prog Response :=
  err ← call (DB_Exec (UpdateSetQuantity 100 1));
  if is_err err then mret (JSON 500 (JError "Failed to reset DB")) else
  call (DB_Exec DeleteOrders);;
  err ← call (Rdb_Set "product:1:stock" 100);
  if is_err err then mret (JSON 500 (JError "Failed to reset Redis")) else
  ResetStats;;
  mret (JSON 200 (JMessage "✅ Stock reset to 100, orders cleared, stats reset!")).

(** POST /sync-redis *)
Definition syncCache : prog Response :=
  '(dbStock, err) ← call (DB_QueryRow (SelectQuantity 1));
  if is_err err then mret (JSON 500 (JError "Failed to read DB stock")) else
  let dbStock := if dbStock <? 0 then 0 else dbStock in
  err ← call (Rdb_Set "product:1:stock" dbStock);
  if is_err err then mret (JSON 500 (JError "Failed to sync Redis")) else
  mret (JSON 200 (JSynced dbStock)).

(** The routes of [main]. *)
Inductive Route :=
  | POST_purchase | POST_purchase_naive | POST_purchase_postgres
  | POST_purchase_redis | GET_stats | POST_reset | POST_sync_redis.

Definition handler (r : Route) (c : option PurchaseRequest) : prog Response :=
  match r with
  | POST_purchase => PurchaseProduct c
  | POST_purchase_naive => PurchaseNaive c
  | POST_purchase_postgres => PurchasePostgresLock c
  | POST_purchase_redis => PurchaseRedisPostgres c
  | GET_stats => stats_handler
  | POST_reset => reset
  | POST_sync_redis => syncCache
  end.

(** ** What the operations do *)

(** What the environment decides at one operation: whether the call fails
    for a reason outside the program (connection lost, server down), and
    what the clock reads. *)
Record env := { fault : bool; clock : Z }.

(** An operation either waits (on a row lock) or completes. *)
Inductive outcome (X : Type) : Type :=
  | Blocked
  | Done (x : X) (w : World).
Arguments Blocked {X}.
Arguments Done {X} x w.

(** Is the row locked by a transaction other than [me]'s?  A statement
    outside any transaction has [me = None]. *)
Definition held_by_other (me : option nat) (r : Row) : bool :=
  match xlock r, me with
  | None, _ => false
  | Some _, None => true
  | Some o, Some t => negb (bool_decide (o = t))
  end.

(** Statements on the pool (each its own transaction, committed at once). *)
Definition db_query (q : query) (w : World) : outcome (Z * error) :=
  match q with
  | SelectQuantity id =>
      if in_int4 id then
        match products w !! id with
        | Some r => Done (quantity r, nil) w
        | None => Done (0, Failed) w                   (* no rows *)
        end
      else Done (0, Failed) w                          (* parameter out of range *)
  | SelectQuantityForUpdate id =>
      if in_int4 id then
        match products w !! id with
        | Some r => if held_by_other None r then Blocked else Done (quantity r, nil) w
        | None => Done (0, Failed) w
        end
      else Done (0, Failed) w
  | SelectCountOrders => Done (Z.of_nat (length (orders w)), nil) w
  end.

(** [UPDATE products SET quantity = f(quantity) WHERE id = id], on the pool:
    no row, nothing updated and no error; a locked row makes the statement
    wait; a value out of the column's range is an error. *)
Definition db_update (id : Z) (f : Z → Z) (w : World) : outcome error :=
  if in_int4 id then
    match products w !! id with
    | None => Done nil w
    | Some r =>
        if held_by_other None r then Blocked
        else if in_int4 (f (quantity r))
        then Done nil (set_products <[id := {| quantity := f (quantity r); xlock := xlock r |}]> w)
        else Done Failed w
    end
  else Done Failed w.

(** The order row of [INSERT ... VALUES ($1, $2, 'success')]. *)
Definition new_order (uid pid : Z) : Order :=
  {| user_id := uid; product_id := pid; status := "success" |}.

(** An insert is refused when a parameter is out of range or when
    [product_id] references no product ([REFERENCES products(id)]).  The
    key-share lock this check takes on the product's row is not modelled:
    among requests of one strategy it never has to wait. *)
Definition insertable (uid pid : Z) (w : World) : bool :=
  in_int4 uid && in_int4 pid && bool_decide (is_Some (products w !! pid)).

Definition db_exec (c : command) (w : World) : outcome error :=
  match c with
  | UpdateDecrement id => db_update id (λ q, q - 1) w
  | UpdateSetQuantity v id => db_update id (λ _, v) w
  | InsertOrder uid pid =>
      if insertable uid pid w
      then Done nil (set_orders (λ os, os ++ [new_order uid pid]) w)
      else Done Failed w
  | DeleteOrders => Done nil (set_orders (λ _, []) w)
  end.

(** Statements inside the transaction of request [t]: it sees its own
    writes, takes the row lock on [FOR UPDATE] and on [UPDATE], and keeps
    its writes private.  The handlers return at the first error, so a
    transaction with a failed statement is only ever rolled back. *)
Definition lock_row (t : nat) (r : Row) : Row :=
  {| quantity := quantity r; xlock := Some t |}.

Definition tx_view (tx : Tx) (id : Z) (r : Row) : Z :=
  default (quantity r) (tx_rows tx !! id).

Definition tx_query (t : nat) (q : query) (w : World) : outcome (Z * error) :=
  match txs w !! t with
  | None => Done (0, Failed) w                         (* tx is closed *)
  | Some tx =>
      match q with
      | SelectQuantity id =>
          if in_int4 id then
            match products w !! id with
            | Some r => Done (tx_view tx id r, nil) w
            | None => Done (0, Failed) w
            end
          else Done (0, Failed) w
      | SelectQuantityForUpdate id =>
          if in_int4 id then
            match products w !! id with
            | Some r =>
                if held_by_other (Some t) r then Blocked
                else Done (tx_view tx id r, nil) (set_products <[id := lock_row t r]> w)
            | None => Done (0, Failed) w
            end
          else Done (0, Failed) w
      | SelectCountOrders =>
          Done (Z.of_nat (length (if tx_cleared tx then [] else orders w)
                          + length (tx_orders tx)), nil) w
      end
  end.

Definition tx_update (t : nat) (tx : Tx) (id : Z) (f : Z → Z) (w : World) : outcome error :=
  if in_int4 id then
    match products w !! id with
    | None => Done nil w
    | Some r =>
        if held_by_other (Some t) r then Blocked
        else if in_int4 (f (tx_view tx id r))
        then Done nil
               (set_txs <[t := {| tx_rows := <[id := f (tx_view tx id r)]> (tx_rows tx);
                                  tx_orders := tx_orders tx;
                                  tx_cleared := tx_cleared tx |}]>
                  (set_products <[id := lock_row t r]> w))
        else Done Failed w
    end
  else Done Failed w.

Definition tx_exec (t : nat) (c : command) (w : World) : outcome error :=
  match txs w !! t with
  | None => Done Failed w
  | Some tx =>
      match c with
      | UpdateDecrement id => tx_update t tx id (λ q, q - 1) w
      | UpdateSetQuantity v id => tx_update t tx id (λ _, v) w
      | InsertOrder uid pid =>
          if insertable uid pid w
          then Done nil
                 (set_txs <[t := {| tx_rows := tx_rows tx;
                                    tx_orders := tx_orders tx ++ [new_order uid pid];
                                    tx_cleared := tx_cleared tx |}]> w)
          else Done Failed w
      | DeleteOrders =>
          Done nil (set_txs <[t := {| tx_rows := tx_rows tx; tx_orders := [];
                                      tx_cleared := true |}]> w)
      end
  end.

(** The end of a transaction: its locks are released; on commit its writes
    become the committed state. *)
Definition release (t : nat) (r : Row) : Row :=
  {| quantity := quantity r;
     xlock := if bool_decide (xlock r = Some t) then None else xlock r |}.

Definition tx_rollback (t : nat) (w : World) : World :=
  set_txs (delete t) (set_products (fmap (release t)) w).

Definition publish (t : nat) (tx : Tx) (id : Z) (r : Row) : option Row :=
  Some (release t {| quantity := tx_view tx id r; xlock := xlock r |}).

Definition tx_commit (t : nat) (tx : Tx) (w : World) : World :=
  set_txs (delete t)
    (set_orders (λ os, (if tx_cleared tx then [] else os) ++ tx_orders tx)
       (set_products (map_imap (publish t tx)) w)).

(** One operation of request [t].  A call that the environment fails has no
    effect, except that a failed commit ends the transaction with nothing
    committed.  Redis integers are 64-bit, but every value this code stores
    is a PostgreSQL [INT] or one step from one, so INCR and DECR stay in
    range and are modelled on [Z]. *)
Definition exec_op (t : nat) (ε : env) {X : Type} (e : Op X) (w : World) : outcome X :=
  match e in Op X return outcome X with
  | AddInt64 c d => Done () (set_stats (λ s, store c (wrap64 (load c s + d)) s) w)
  | LoadInt64 c => Done (load c (stats w)) w
  | StoreInt64 c v => Done () (set_stats (store c v) w)
  | Since => Done (clock ε) w
  | Sleep _ => Done () w
  | DB_QueryRow q => if fault ε then Done (0, Failed) w else db_query q w
  | DB_Exec c => if fault ε then Done Failed w else db_exec c w
  | DB_Begin =>
      if fault ε then Done Failed w else Done nil (set_txs <[t := empty_tx]> w)
  | Tx_QueryRow q => if fault ε then Done (0, Failed) w else tx_query t q w
  | Tx_Exec c => if fault ε then Done Failed w else tx_exec t c w
  | Tx_Commit =>
      match txs w !! t with
      | None => Done Failed w
      | Some tx =>
          if fault ε then Done Failed (tx_rollback t w)
          else Done nil (tx_commit t tx w)
      end
  | Tx_Rollback =>
      match txs w !! t with
      | None => Done Failed w                          (* tx is closed *)
      | Some _ => Done nil (tx_rollback t w)
      end
  | Rdb_Eval s keys =>
      if fault ε then Done (0, Failed) w
      else Done (s keys (rdb w)).1 (set_rdb (λ _, (s keys (rdb w)).2) w)
  | Rdb_Incr key =>
      if fault ε then Done (0, Failed) w
      else Done (default 0 (rdb w !! key) + 1, nil)
             (set_rdb <[key := default 0 (rdb w !! key) + 1]> w)
  | Rdb_Set key v =>
      if fault ε then Done Failed w else Done nil (set_rdb <[key := v]> w)
  | Rdb_Get key =>
      if fault ε then Done (0, Failed) w
      else match rdb w !! key with
           | Some v => Done (v, nil) w
           | None => Done (0, Failed) w                (* redis.Nil *)
           end
  end.

(** ** One handler alone *)

(** An entry of the trace of operations a request issued. *)
Inductive entry :=
  | Call : ∀ {X : Type}, Op X → X → entry.

(** Run the program of request [t] to its end with nothing else running;
    [es] is what the environment does at each operation in turn (a calm
    environment once the list is used up).  [None]: the program waits on a
    lock nobody will release. *)
Definition calm : env := {| fault := false; clock := 0 |}.

Fixpoint run_alone {R : Type} (t : nat) (es : list env) (p : prog R) (w : World)
  : option (R * World * list entry) :=
  match p with
  | Ret r => Some (r, w, [])
  | Vis e k =>
      match exec_op t (hd calm es) e w with
      | Blocked => None
      | Done x w' =>
          match run_alone t (tl es) (k x) w' with
          | Some (r, w'', log) => Some (r, w'', Call e x :: log)
          | None => None
          end
      end
  end.

(** ** Many requests interleaved *)

(** A configuration: the world and the requests so far, each with what is
    left of its handler ([Ret r]: it has answered [r]).  A request is named
    by its position. *)
Record Config := { world : World; threads : list (prog Response) }.

Inductive event :=
  | Arrive (r : Route) (c : option PurchaseRequest)   (* a request comes in *)
  | Step (t : nat) (ε : env).                         (* request [t] does its next operation *)

Definition step (ev : event) (c : Config) : Config :=
  match ev with
  | Arrive r b => {| world := world c; threads := threads c ++ [handler r b] |}
  | Step t ε =>
      match threads c !! t with
      | Some (Vis e k) =>
          match exec_op t ε e (world c) with
          | Done x w' => {| world := w'; threads := <[t := k x]> (threads c) |}
          | Blocked => c
          end
      | _ => c
      end
  end.

Definition run (evs : list event) (c : Config) : Config :=
  foldl (λ c ev, step ev c) c evs.

(** The state after seeding and after a successful reset: one product,
    with id 1 and 100 in stock, no order, the cache at 100, counters at
    zero, nothing in flight. *)
Definition initialCapacity : Z := 100.

Definition reset_world : World :=
  {| products := {[ 1 := {| quantity := initialCapacity; xlock := None |} ]};
     orders := [];
     txs := ∅;
     rdb := {[ "product:1:stock" := initialCapacity ]};
     stats := zero_stats |}.

Definition reset_config : Config := {| world := reset_world; threads := [] |}.

(** ** Observations *)

(** What the dashboard and the design document observe: the stock of the
    one product on sale, the number of order rows, the cache counter. *)
Definition Product_quantity (w : World) : option Z := quantity <$> products w !! 1.
Definition successfulOrders (w : World) : Z := Z.of_nat (length (orders w)).
Definition CacheCounter (w : World) : option Z := rdb w !! "product:1:stock".

(** [oversellAmount] of runAttack. *)
Definition oversold (w : World) : Z :=
  if initialCapacity <? successfulOrders w then successfulOrders w - initialCapacity else 0.

(** No row is locked: nothing is in flight on the ledger. *)
Definition no_locks (w : World) : bool :=
  bool_decide (map_Forall (λ _ r, xlock r = None) (products w)).

(** The environment never fails a call. *)
Definition all_calm (es : list env) : bool := forallb (λ ε, negb (fault ε)) es.

(** *** Reading a trace of operations *)

Definition is_ledger_call (en : entry) : bool :=
  match en with
  | Call e _ =>
      match e with
      | DB_QueryRow _ | DB_Exec _ | DB_Begin | Tx_QueryRow _ | Tx_Exec _
      | Tx_Commit | Tx_Rollback => true
      | _ => false
      end
  end.

(** The reply of the gate, when the entry is a gate call that Redis answered. *)
Definition gate_reply (en : entry) : option Z :=
  match en with
  | @Call X e x =>
      match e in Op X return X → option Z with
      | Rdb_Eval _ _ => λ x, if is_err x.2 then None else Some x.1
      | _ => λ _, None
      end x
  end.

(** The gate let the request through: it answered with a new stock value. *)
Definition gate_passed (log : list entry) : bool :=
  existsb (λ en, match gate_reply en with Some s => 0 <=? s | None => false end) log.

(** A step on the ledger (begin, statement or commit) returned an error. *)
Definition ledger_step_failed (en : entry) : bool :=
  match en with
  | @Call X e x =>
      match e in Op X return X → bool with
      | DB_QueryRow _ => λ x, is_err x.2
      | Tx_QueryRow _ => λ x, is_err x.2
      | DB_Exec _ => is_err
      | DB_Begin => is_err
      | Tx_Exec _ => is_err
      | Tx_Commit => is_err
      | _ => λ _, false
      end x
  end.

Definition ledger_failed (log : list entry) : bool := existsb ledger_step_failed log.

(** The compensating [INCR] of a key, issued, and answered by Redis. *)
Definition incr_of (key : string) (en : entry) : option error :=
  match en with
  | @Call X e x =>
      match e in Op X return X → option error with
      | Rdb_Incr key' => λ x, if bool_decide (key' = key) then Some x.2 else None
      | _ => λ _, None
      end x
  end.

Definition incr_issued (key : string) (log : list entry) : bool :=
  existsb (λ en, bool_decide (is_Some (incr_of key en))) log.
Definition incr_applied (key : string) (log : list entry) : bool :=
  existsb (λ en, bool_decide (incr_of key en = Some nil)) log.

(** The keys the gate was run on, and the products whose quantity a
    statement of the request decrements. *)
Definition gate_keys (log : list entry) : list string :=
  flat_map (λ en, match en with
                  | Call e _ => match e with Rdb_Eval _ keys => keys | _ => [] end
                  end) log.

Definition decrement_targets (log : list entry) : list Z :=
  flat_map (λ en, match en with
                  | Call e _ =>
                      match e with
                      | DB_Exec (UpdateDecrement id) | Tx_Exec (UpdateDecrement id) => [id]
                      | _ => []
                      end
                  end) log.

(** *** Schedules *)

#[global] Instance Route_eq_dec : EqDecision Route.
Proof. solve_decision. Defined.

(** Requests come in on the given routes only. *)
Definition only_routes (rs : list Route) (evs : list event) : bool :=
  forallb (λ ev, match ev with
                 | Arrive r _ => bool_decide (r ∈ rs)
                 | Step _ _ => true
                 end) evs.

Definition no_faults (evs : list event) : bool :=
  forallb (λ ev, match ev with Arrive _ _ => true | Step _ ε => negb (fault ε) end) evs.

(** Requests received and not yet answered, and the most there ever are
    along a schedule. *)
Definition running {R : Type} (p : prog R) : bool :=
  match p with Ret _ => false | Vis _ _ => true end.

Definition in_flight (c : Config) : nat := length (filter (λ p, running p = true) (threads c)).

Fixpoint peak_in_flight (evs : list event) (c : Config) : nat :=
  match evs with
  | [] => in_flight c
  | ev :: evs => in_flight c `max` peak_in_flight evs (step ev c)
  end.

(** Buyer [i] asks for the product on sale, as in attack.go. *)
Definition buyer (i : nat) : option PurchaseRequest :=
  Some {| UserID := Z.of_nat i; ProductID := 1 |}.

(** [n] requests to the unprotected route, numbered from [t0], arriving
    together and then advancing in lock step, one operation each per
    round: every one of them has read the stock before any of them writes
    it, which is what the sleep between the read and the write brings about
    for requests that arrive within it of each other.  A successful
    unprotected purchase is nine operations. *)
Definition arrivals (t0 n : nat) : list event :=
  (λ i, Arrive POST_purchase_naive (buyer i)) <$> seq t0 n.
Definition round (t0 n : nat) : list event := (λ t, Step t calm) <$> seq t0 n.
Definition lockstep (t0 n : nat) : list event := arrivals t0 n ++ concat (replicate 9 (round t0 n)).

(** [n] requests to the unprotected route, each finished before the next
    arrives. *)
Definition one_by_one (n : nat) : list event :=
  flat_map (λ t, Arrive POST_purchase_naive (buyer t) :: replicate 9 (Step t calm)) (seq 0 n).

(** Ninety-nine buyers one by one, then two at once for the last item. *)
Definition last_item_race : list event := one_by_one 99 ++ lockstep 99 2.

(** ** The program of a request after some answers *)

(** What an operation can answer. *)
Inductive answer := AUnit | AInt (z : Z) | AErr (e : error) | ARow (z : Z) (e : error).

Definition reply {X : Type} (e : Op X) (a : answer) : option X :=
  match e in Op X return option X with
  | AddInt64 _ _ => match a with AUnit => Some () | _ => None end
  | StoreInt64 _ _ => match a with AUnit => Some () | _ => None end
  | Sleep _ => match a with AUnit => Some () | _ => None end
  | LoadInt64 _ => match a with AInt z => Some z | _ => None end
  | Since => match a with AInt z => Some z | _ => None end
  | DB_QueryRow _ => match a with ARow z e => Some (z, e) | _ => None end
  | Tx_QueryRow _ => match a with ARow z e => Some (z, e) | _ => None end
  | Rdb_Eval _ _ => match a with ARow z e => Some (z, e) | _ => None end
  | Rdb_Incr _ => match a with ARow z e => Some (z, e) | _ => None end
  | Rdb_Get _ => match a with ARow z e => Some (z, e) | _ => None end
  | DB_Exec _ => match a with AErr e => Some e | _ => None end
  | DB_Begin => match a with AErr e => Some e | _ => None end
  | Tx_Exec _ => match a with AErr e => Some e | _ => None end
  | Tx_Commit => match a with AErr e => Some e | _ => None end
  | Tx_Rollback => match a with AErr e => Some e | _ => None end
  | Rdb_Set _ _ => match a with AErr e => Some e | _ => None end
  end.

(** What is left of a program once its first operation got answer [a]. *)
Definition after {R : Type} (p : prog R) (a : answer) : prog R :=
  match p with
  | Vis e k => match reply e a with Some x => k x | None => p end
  | Ret _ => p
  end.

Definition resume {R : Type} (p : prog R) (answers : list answer) : prog R :=
  foldl after p answers.

(** The points of [PurchasePostgresLock] a request can be waiting at:
    before [Begin], before the locking read, after it (having read [q]),
    before the insert, before the commit. *)
Definition lock_begin (req : PurchaseRequest) : prog Response :=
  resume (PurchasePostgresLock (Some req)) [AUnit].
Definition lock_select (req : PurchaseRequest) : prog Response :=
  resume (PurchasePostgresLock (Some req)) [AUnit; AErr nil].
Definition lock_check (req : PurchaseRequest) (q : Z) : prog Response :=
  resume (PurchasePostgresLock (Some req)) [AUnit; AErr nil; ARow q nil].
Definition lock_insert (req : PurchaseRequest) : prog Response :=
  resume (PurchasePostgresLock (Some req)) [AUnit; AErr nil; ARow 1 nil; AErr nil].
Definition lock_commit (req : PurchaseRequest) : prog Response :=
  resume (PurchasePostgresLock (Some req)) [AUnit; AErr nil; ARow 1 nil; AErr nil; AErr nil].

(** The points of [PurchaseRedisPostgres]: before the gate, before
    [Begin] (the gate having answered a stock of 0 or more), before the
    update, before the insert, before the commit. *)
Definition gate_eval (req : PurchaseRequest) : prog Response :=
  resume (PurchaseRedisPostgres (Some req)) [AUnit].
Definition gate_begin (req : PurchaseRequest) : prog Response :=
  resume (PurchaseRedisPostgres (Some req)) [AUnit; ARow 0 nil].
Definition gate_update (req : PurchaseRequest) : prog Response :=
  resume (PurchaseRedisPostgres (Some req)) [AUnit; ARow 0 nil; AErr nil].
Definition gate_insert (req : PurchaseRequest) : prog Response :=
  resume (PurchaseRedisPostgres (Some req)) [AUnit; ARow 0 nil; AErr nil; AErr nil].
Definition gate_commit (req : PurchaseRequest) : prog Response :=
  resume (PurchaseRedisPostgres (Some req)) [AUnit; ARow 0 nil; AErr nil; AErr nil; AErr nil].

(** The points of [PurchaseNaive] on its successful path: before the read,
    asleep (having read a positive stock), before the update, before the
    insert, and the four steps of [succeed]. *)
Definition naive_at (req : PurchaseRequest) (n : nat) : prog Response :=
  resume (PurchaseNaive (Some req))
    (take n [AUnit; ARow 1 nil; AUnit; AErr nil; AErr nil; AUnit; AInt 0; AUnit; AInt 0]).

(** ** Invariants of the interleaved runs *)

(** Operations that change neither a quantity, nor the orders, nor the
    cache: counters, clock, plain reads, and the rollback that ends the
    request's own transaction. *)
Definition passive {X : Type} (e : Op X) : bool :=
  match e with
  | AddInt64 _ _ | LoadInt64 _ | StoreInt64 _ _ | Since | Sleep _ => true
  | DB_QueryRow (SelectQuantity _) | DB_QueryRow SelectCountOrders => true
  | Rdb_Get _ => true
  | Tx_Rollback => true
  | _ => false
  end.

(** A program that has only passive operations left. *)
Fixpoint closing {R : Type} (p : prog R) : Prop :=
  match p with
  | Ret _ => True
  | Vis e k => passive e = true ∧ ∀ x, closing (k x)
  end.

(** The ledger holds the one product, and its quantity is the capacity
    minus the orders, and not negative. *)
Definition ledger_ok (w : World) : Prop :=
  ∃ q l, products w = {[ 1 := {| quantity := q; xlock := l |} ]}
         ∧ q = initialCapacity - successfulOrders w ∧ 0 ≤ q.

(** Request [t] holds the lock of the product's row, which reads [q]. *)
Definition holds (t : nat) (q : Z) (w : World) : Prop :=
  products w !! 1 = Some {| quantity := q; xlock := Some t |}.

(** A transaction that has decremented the product from [q] and inserted [os]. *)
Definition pending (q : Z) (os : list Order) : Tx :=
  {| tx_rows := {[ 1 := q - 1 ]}; tx_orders := os; tx_cleared := false |}.

(** Where a request of the locked strategy can be, and what then holds of
    its transaction. *)
Inductive locked_thread (t : nat) (w : World) : prog Response → Prop :=
  | lt_closing p : closing p → locked_thread t w p
  | lt_entry c : locked_thread t w (PurchasePostgresLock c)
  | lt_begin req : locked_thread t w (lock_begin req)
  | lt_select req : txs w !! t = Some empty_tx → locked_thread t w (lock_select req)
  | lt_check req q :
      ProductID req = 1 → txs w !! t = Some empty_tx → holds t q w →
      locked_thread t w (lock_check req q)
  | lt_insert req q :
      ProductID req = 1 → 0 < q → txs w !! t = Some (pending q []) → holds t q w →
      locked_thread t w (lock_insert req)
  | lt_commit req q :
      ProductID req = 1 → 0 < q →
      txs w !! t = Some (pending q [new_order (UserID req) 1]) → holds t q w →
      locked_thread t w (lock_commit req).

Definition locked_inv (c : Config) : Prop :=
  ledger_ok (world c)
  ∧ ∀ t p, threads c !! t = Some p → locked_thread t (world c) p.

(** Where a request of the gated strategy can be; the boolean says whether
    it holds a reservation: it has taken one unit from the cache counter and
    has neither committed nor given it back. *)
Inductive gated_thread (t : nat) (w : World) : bool → prog Response → Prop :=
  | gt_closing p : closing p → gated_thread t w false p
  | gt_entry c : gated_thread t w false (PurchaseRedisPostgres c)
  | gt_eval req : gated_thread t w false (gate_eval req)
  | gt_begin req : gated_thread t w true (gate_begin req)
  | gt_update req : txs w !! t = Some empty_tx → gated_thread t w true (gate_update req)
  | gt_insert req q :
      ProductID req = 1 → txs w !! t = Some (pending q []) → holds t q w →
      gated_thread t w true (gate_insert req)
  | gt_insert_miss req :
      ProductID req ≠ 1 → gated_thread t w true (gate_insert req)
  | gt_commit req q :
      ProductID req = 1 →
      txs w !! t = Some (pending q [new_order (UserID req) 1]) → holds t q w →
      gated_thread t w true (gate_commit req)
  | gt_compensate (k : Z * error → prog Response) :
      (∀ x, closing (k x)) →
      gated_thread t w true (Vis (Rdb_Incr "product:1:stock") k).

(** What is left after a failed ledger step: the compensating INCR, then
    passive operations only. *)
Definition compensating (p : prog Response) : Prop :=
  ∃ k, p = Vis (Rdb_Incr "product:1:stock") k ∧ ∀ x, closing (k x).

(** The number of reservations held. *)
Fixpoint held (rs : list bool) : Z :=
  match rs with
  | [] => 0
  | r :: rs => (if r then 1 else 0) + held rs
  end.

(** The cache counter never promises more than the ledger has: counter plus
    reservations is at most the quantity. *)
Definition gated_inv (c : Config) : Prop :=
  ∃ rs : list bool,
    ledger_ok (world c)
    ∧ length rs = length (threads c)
    ∧ (∀ t p r, threads c !! t = Some p → rs !! t = Some r →
                gated_thread t (world c) r p)
    ∧ ∃ v q, CacheCounter (world c) = Some v ∧ Product_quantity (world c) = Some q
             ∧ 0 ≤ v ∧ v + held rs ≤ q.

(** No operation left adds to [OversellCount] or stores anything but zero
    in it, and, the counter reading zero, no answer reports an oversell. *)
Definition reports_no_oversell (r : Response) : Prop :=
  match body r with
  | JStats _ _ _ oversells _ _ _ _ => oversells = 0
  | _ => True
  end.

Fixpoint oversell_free (p : prog Response) : Prop :=
  match p with
  | Ret r => reports_no_oversell r
  | Vis e k =>
      match e in Op X return (X → Prop) → Prop with
      | AddInt64 c _ => λ K, c ≠ OversellCount ∧ K ()
      | StoreInt64 c v => λ K, (c = OversellCount → v = 0) ∧ K ()
      | LoadInt64 c => λ K, if bool_decide (c = OversellCount) then K 0 else ∀ x, K x
      | _ => λ K, ∀ x, K x
      end (λ x, oversell_free (k x))
  end.

Definition oversell_inv (c : Config) : Prop :=
  oversells (stats (world c)) = 0 ∧ ∀ t p, threads c !! t = Some p → oversell_free p.

(** ** The load harness of the dashboard (runAttack) *)

(** [Array.prototype.slice] on whole-number arguments: a negative index
    counts from the end, indices are clamped to the array, and an empty
    range gives an empty array. *)
Definition js_slice {A : Type} (l : list A) (start final : Z) : list A :=
  let len := Z.of_nat (length l) in
  let k := if start <? 0 then Z.max (len + start) 0 else Z.min start len in
  let e := if final <? 0 then Z.max (len + final) 0 else Z.min final len in
  take (Z.to_nat (e - k)) (drop (Z.to_nat k) l).

(** The loop of [runBatch],
      for (let i = 0; i < tasks.length; i += batchSize)
        await Promise.all(tasks.slice(i, i + batchSize).map(t => t()));
    as the batches it dispatches one after another.  The loop need not end
    (nothing checks [batchSize]), so it runs on fuel: [None] when the fuel
    runs out first. *)
Fixpoint runBatch_from {A : Type} (fuel : nat) (tasks : list A) (batchSize i : Z)
  : option (list (list A)) :=
  match fuel with
  | O => None
  | S fuel =>
      if i <? Z.of_nat (length tasks)
      then cons (js_slice tasks i (i + batchSize))
             <$> runBatch_from fuel tasks batchSize (i + batchSize)
      else Some []
  end.

Definition runBatch {A : Type} (fuel : nat) (tasks : list A) (batchSize : Z)
  : option (list (list A)) :=
  runBatch_from fuel tasks batchSize 0.

(** [Array(requestCount).fill(null).map(() => makeRequest)]: the attempts,
    here told apart by their position. *)
Definition tasks_of (requestCount : nat) : list nat := seq 0 requestCount.

(** What can be seen of the harness: an attempt is sent, an attempt is
    answered. *)
Inductive hev := Dispatch (task : nat) | Settle (task : nat).

(** [await Promise.all(batch.map(t => t()))]: every attempt of the batch is
    sent, in order, before the event loop runs anything else; the answers
    come back in any order; the loop goes on when all are back. *)
Inductive batch_trace : list nat → list hev → Prop :=
  | batch_trace_intro (b p : list nat) :
      p ≡ₚ b → batch_trace b ((Dispatch <$> b) ++ (Settle <$> p)).

Inductive harness_trace : list (list nat) → list hev → Prop :=
  | harness_done : harness_trace [] []
  | harness_batch b bs tr trs :
      batch_trace b tr → harness_trace bs trs → harness_trace (b :: bs) (tr ++ trs).

(** Attempts sent and not yet answered: after a trace, starting from [n],
    and the most there are at any moment of it. *)
Fixpoint pending_after (n : Z) (tr : list hev) : Z :=
  match tr with
  | [] => n
  | Dispatch _ :: tr => pending_after (n + 1) tr
  | Settle _ :: tr => pending_after (n - 1) tr
  end.

Fixpoint peak_from (n : Z) (tr : list hev) : Z :=
  match tr with
  | [] => n
  | Dispatch _ :: tr => n `max` peak_from (n + 1) tr
  | Settle _ :: tr => n `max` peak_from (n - 1) tr
  end.

Definition peak (tr : list hev) : Z := peak_from 0 tr.

(** The stand-alone script scripts/attack.go has no batches: it starts its
    500 goroutines in one loop and waits for all of them.  One of its
    traces: all sent before any is answered. *)
Definition attack_totalRequests : nat := 500.
Definition attack_burst : list hev :=
  (Dispatch <$> seq 0 attack_totalRequests) ++ (Settle <$> seq 0 attack_totalRequests).

(** ** Reasoning about one handler alone *)

(** [wp t es p w Q]: run alone from [w], program [p] runs to its end
    without waiting, and its answer, the final world and the trace of its
    operations satisfy [Q]. *)
Fixpoint wp {R : Type} (t : nat) (es : list env) (p : prog R) (w : World)
    (Q : R → World → list entry → Prop) : Prop :=
  match p with
  | Ret r => Q r w []
  | Vis e k =>
      match exec_op t (hd calm es) e w with
      | Blocked => False
      | Done x w' => wp t (tl es) (k x) w' (λ r w'' log, Q r w'' (Call e x :: log))
      end
  end.

(** A purchase handler aborts cleanly when an answer 500 (a fault of the
    infrastructure) means that neither a quantity nor the orders changed. *)
Definition aborts_cleanly (h : option PurchaseRequest → prog Response) : Prop :=
  ∀ t es c w resp w' log,
    no_locks w = true →
    run_alone t es (h c) w = Some (resp, w', log) →
    code resp = StatusInternalServerError →
    products w' = products w ∧ orders w' = orders w.

(** A ledger with a second product, and a cache entry for each. *)
Definition two_products : World :=
  {| products := {[ 1 := {| quantity := 100; xlock := None |};
                    2 := {| quantity := 5; xlock := None |} ]};
     orders := [];
     txs := ∅;
     rdb := {[ "product:1:stock" := 100; "product:2:stock" := 5 ]};
     stats := zero_stats |}.

(** An environment whose n-th call fails. *)
Definition failing_at (n : nat) : list env :=
  replicate n calm ++ [ {| fault := true; clock := 0 |} ].

(** The world with the cache counter forced to [v]. *)
Definition cache_at (v : Z) (w : World) : World :=
  set_rdb <[ "product:1:stock" := v ]> w.

(** The world with the product's quantity forced to [q]. *)
Definition quantity_at (q : Z) (w : World) : World :=
  set_products <[ 1 := {| quantity := q; xlock := None |} ]> w.

(** The race for the last item, then a look at the stats. *)
Definition race_then_stats : list event :=
  last_item_race ++ Arrive GET_stats None :: replicate 8 (Step 101 calm).

(** Locked purchases, each finished before the next arrives (a successful
    one is eleven operations), and one gated purchase after a hundred of
    them. *)
Definition locked_one_by_one (n : nat) : list event :=
  flat_map (λ t, Arrive POST_purchase_postgres (buyer t) :: replicate 11 (Step t calm))
           (seq 0 n).

Definition gated_one_by_one (n : nat) : list event :=
  flat_map (λ t, Arrive POST_purchase_redis (buyer t) :: replicate 11 (Step t calm))
           (seq 0 n).

Definition locked_then_gated : list event :=
  locked_one_by_one 100
  ++ Arrive POST_purchase_redis (buyer 100) :: replicate 11 (Step 100 calm).

(** The worlds a race of unprotected requests goes through: [a] requests
    counted, [u] decrements written, [o] orders inserted, [s] successes
    counted. *)
Definition race_world (a u o s : nat) : World :=
  {| products := {[ 1 := {| quantity := initialCapacity - Z.of_nat u; xlock := None |} ]};
     orders := (λ j, new_order (Z.of_nat j) 1) <$> seq 0 o;
     txs := ∅;
     rdb := {[ "product:1:stock" := initialCapacity ]};
     stats := {| total_requests := Z.of_nat a; success := Z.of_nat s; failed := 0;
                 oversells := 0; total_latency_ms := 0 |} |}.

(** The request of buyer [i], at its [k]-th operation. *)
Definition racer (k i : nat) : prog Response :=
  naive_at {| UserID := Z.of_nat i; ProductID := 1 |} k.

(** * Lemmas *)

(** ** Small facts *)

Lemma wp_run_alone {R : Type} t es (p : prog R) w Q :
  wp t es p w Q ↔ ∃ r w' log, run_alone t es p w = Some (r, w', log) ∧ Q r w' log.
Proof.
  revert es w Q. induction p as [r | X e k IH]; intros es w Q; cbn [wp run_alone].
  - split; [intros HQ; by eexists _, _, _ | intros (? & ? & ? & [= <- <- <-] & HQ); done].
  - destruct (exec_op t (hd calm es) e w) as [|x w1].
    + split; [done | intros (? & ? & ? & [=] & _)].
    + rewrite IH. split.
      * intros (r & w' & log & -> & HQ). by eexists _, _, _.
      * intros (r & w' & log & Hrun & HQ).
        destruct (run_alone t (tl es) (k x) w1) as [[[r1 w2] log1]|]; [|done].
        injection Hrun as <- <- <-. by eexists _, _, _.
Qed.

Lemma no_locks_lookup w id r :
  no_locks w = true → products w !! id = Some r → xlock r = None.
Proof.
  unfold no_locks. intros H%bool_decide_eq_true Hr. exact (H id r Hr).
Qed.

Lemma release_unlocked t (m : gmap Z Row) :
  map_Forall (λ _ r, xlock r = None) m → release t <$> m = m.
Proof.
  intros H. apply map_eq. intros i. rewrite lookup_fmap.
  destruct (m !! i) as [[q l]|] eqn:E; [|done].
  apply H in E. simpl in E. subst l. done.
Qed.

Lemma release_after_lock t (m : gmap Z Row) id q :
  map_Forall (λ _ r, xlock r = None) m →
  m !! id = Some {| quantity := q; xlock := None |} →
  release t <$> <[id := {| quantity := q; xlock := Some t |}]> m = m.
Proof.
  intros H Hid. rewrite fmap_insert, release_unlocked by done.
  unfold release. cbn. rewrite bool_decide_eq_true_2 by done.
  by apply insert_id.
Qed.

(** The two behaviours of the gate. *)
Lemma luaScript_cases key db :
  (∃ stock, db !! key = Some stock ∧ 0 < stock
            ∧ luaScript [key] db = ((stock - 1, nil), <[key := stock - 1]> db))
  ∨ ((db !! key = None ∨ ∃ stock, db !! key = Some stock ∧ stock ≤ 0)
     ∧ luaScript [key] db = ((-1, nil), db)).
Proof.
  unfold luaScript. destruct (db !! key) as [stock|] eqn:E.
  - destruct (stock <=? 0) eqn:L.
    + right. split; [right; exists stock; split; [done | lia] | done].
    + left. exists stock. split; [done|]. split; [lia | done].
  - right. split; [by left | done].
Qed.

Lemma bool_decide_is_Some_Some {A} (x : A) : bool_decide (is_Some (Some x)) = true.
Proof. apply bool_decide_eq_true_2. by eexists. Qed.

Lemma bool_decide_is_Some_None {A} : bool_decide (is_Some (@None A)) = false.
Proof. apply bool_decide_eq_false_2. by intros [x ?]. Qed.

Lemma all_calm_hd es : all_calm es = true → fault (hd calm es) = false.
Proof.
  destruct es as [|ε es]; [done|]. cbn. intros [H _]%andb_true_iff.
  by destruct (fault ε).
Qed.

Lemma all_calm_tl es : all_calm es = true → all_calm (tl es) = true.
Proof. destruct es as [|ε es]; [done|]. cbn. by intros [_ H]%andb_true_iff. Qed.

Lemma in_int4_1 : in_int4 1 = true.
Proof. reflexivity. Qed.

Lemma in_int4_100 : in_int4 100 = true.
Proof. reflexivity. Qed.

(** ** Walking through a handler, operation by operation *)

Ltac world_simpl :=
  cbn [wp mbind prog_mbind prog_bind call exec_op fail_with succeed defer mret prog_mret
       is_err db_query db_exec db_update tx_query tx_exec tx_update tx_commit tx_rollback
       products orders txs rdb stats set_products set_orders set_txs set_rdb set_stats
       fst snd held_by_other lock_row xlock quantity tx_view tx_rows tx_orders tx_cleared
       empty_tx insertable hd tl tail negb andb app default from_option option_fmap fmap
       option_map code body JSON ResetStats id].

(** One step of the walk: simplify, or split on the next thing the run
    depends on (a fault, a row, a range check, the gate).  [Hn] is the fact
    that no row is locked at the start, when there is one ([I] otherwise). *)
Ltac walk1 Hn :=
  first
  [ progress world_simpl
  | progress unfold tx_exec, tx_query, tx_update, db_update, db_query, db_exec, insertable,
      tx_view
  | progress rewrite ?lookup_insert_eq, ?lookup_delete_eq, ?lookup_empty,
      ?bool_decide_is_Some_Some, ?bool_decide_is_Some_None, ?in_int4_1, ?in_int4_100
  | match goal with
    | H : fault ?e = _ |- context [fault ?e] => rewrite H
    | H : ?m !! ?i = _ |- context [?m !! ?i] => rewrite H
    | H : in_int4 ?x = _ |- context [in_int4 ?x] => rewrite H
    | |- context [luaScript [?k] ?db] =>
        let s := fresh "stock" in
        let E := fresh "Hlua" in
        destruct (luaScript_cases k db) as [(s & ? & ? & E) | (? & E)];
        rewrite !E; clear E
    | |- context [bool_decide (?t = ?t)] => rewrite (bool_decide_eq_true_2 (t = t) eq_refl)
    | |- context [if fault ?e then _ else _] => destruct (fault e) eqn:?
    | |- context [if in_int4 ?x then _ else _] => destruct (in_int4 x) eqn:?
    | |- context [in_int4 ?x && _] => destruct (in_int4 x) eqn:?
    | |- context [match products ?w !! ?id with _ => _ end] =>
        let E := fresh "Hrow" in
        let q := fresh "q" in
        let l := fresh "l" in
        destruct (products w !! id) as [[q l]|] eqn:E;
        [ try (pose proof (no_locks_lookup _ _ _ Hn E); simpl in *; subst l) | ]
    | |- context [if ?v <=? 0 then _ else _] => destruct (v <=? 0) eqn:?
    | |- context [if ?v <? 0 then _ else _] => destruct (v <? 0) eqn:?
    | |- context [match rdb ?w !! ?k with _ => _ end] => destruct (rdb w !! k) eqn:?
    end ].

Ltac walk Hn := repeat walk1 Hn.

(** * The checked properties *)

(** ** The gate (C3) *)

(** C3.  The gate of the cache-gated strategy is one operation of the
    handler, it never waits, and as a function of the keyspace it decrements
    the stock exactly when the key is present with a value above zero,
    answering the new value (zero or more); otherwise it answers -1 and
    leaves the keyspace as it was.  A second caller right after a first
    sees the decremented value, never the value the first one saw.  Once the gate has answered a negative
    value, all that is left of the handler is to count a failure and answer
    400 "Out of stock!": run alone, the request ends so, with products,
    orders, transactions and cache unchanged and no ledger call issued. *)
Theorem gate_test_and_decrement :
  (∀ key db stock, db !! key = Some stock → 0 < stock →
     luaScript [key] db = ((stock - 1, nil), <[key := stock - 1]> db) ∧ 0 ≤ stock - 1)
  ∧ (∀ key db, (db !! key = None ∨ ∃ stock, db !! key = Some stock ∧ stock ≤ 0) →
       luaScript [key] db = ((-1, nil), db))
  ∧ (∀ key db stock, db !! key = Some stock → 0 < stock →
       (luaScript [key] (luaScript [key] db).2).1
       = if 1 <? stock then (stock - 2, nil) else (-1, nil))
  ∧ (∀ req, ∃ k, gate_eval req = Vis (Rdb_Eval luaScript ["product:1:stock"]) k)
  ∧ (∀ t ε keys w, ∃ x w', exec_op t ε (Rdb_Eval luaScript keys) w = Done x w')
  ∧ (∀ req s, s < 0 →
       after (gate_eval req) (ARow s nil) = fail_with StatusBadRequest "Out of stock!")
  ∧ (∀ t es req w,
       fault (nth 1 es calm) = false →
       (CacheCounter w = None ∨ ∃ v, CacheCounter w = Some v ∧ v ≤ 0) →
       ∃ w' log,
         run_alone t es (PurchaseRedisPostgres (Some req)) w
           = Some (JSON StatusBadRequest (JError "Out of stock!"), w', log)
         ∧ products w' = products w ∧ orders w' = orders w ∧ txs w' = txs w
         ∧ rdb w' = rdb w
         ∧ forallb (λ en, negb (is_ledger_call en)) log = true).
Proof.
  split_and!.
  - intros key db stock Hk Hpos. unfold luaScript. rewrite Hk.
    destruct (stock <=? 0) eqn:E; [lia|]. split; [done | lia].
  - intros key db H. by destruct (luaScript_cases key db) as [(s & Hs & Hpos & _) | [_ ->]];
      [destruct H as [H | (s' & H & Hle)]; rewrite H in Hs; [done | simplify_eq; lia] |].
  - intros key db stock Hk Hpos. unfold luaScript at 2. rewrite Hk.
    destruct (stock <=? 0) eqn:E; [lia|]. cbn [snd]. unfold luaScript.
    rewrite lookup_insert_eq.
    destruct (stock - 1 <=? 0) eqn:E1; destruct (1 <? stock) eqn:E2; try lia; cbn; try done.
    f_equal. lia.
  - intros req. by eexists.
  - intros t ε keys w. cbn. destruct (fault ε); by eexists _, _.
  - intros req s Hs. cbn. destruct (s <? 0) eqn:E; [done | lia].
  - intros t es req w Hf Hc.
    assert (Hf' : fault (hd calm (tl es)) = false) by (by destruct es as [|? [|? ?]]).
    unfold CacheCounter in Hc.
    enough (wp t es (PurchaseRedisPostgres (Some req)) w (λ r w' log,
              r = JSON StatusBadRequest (JError "Out of stock!")
              ∧ products w' = products w ∧ orders w' = orders w ∧ txs w' = txs w
              ∧ rdb w' = rdb w
              ∧ forallb (λ en, negb (is_ledger_call en)) log = true)) as Hwp.
    { apply wp_run_alone in Hwp as (r & w' & log & Hrun & -> & Hrest). by eexists _, _. }
    unfold PurchaseRedisPostgres. walk I.
    all: try (destruct Hc as [Hc | (v & Hc & Hle)]; simplify_eq; lia).
    all: try lia.
    repeat split; reflexivity.
Qed.

Lemma gate_test_and_decrement_witness :
  ∃ w' log,
    run_alone 0 [] (PurchaseRedisPostgres (buyer 7)) (cache_at 0 reset_world)
      = Some (JSON StatusBadRequest (JError "Out of stock!"), w', log)
    ∧ products w' = products (cache_at 0 reset_world)
    ∧ orders w' = orders (cache_at 0 reset_world)
    ∧ txs w' = txs (cache_at 0 reset_world)
    ∧ rdb w' = rdb (cache_at 0 reset_world)
    ∧ forallb (λ en, negb (is_ledger_call en)) log = true.
Proof.
  destruct gate_test_and_decrement as (_ & _ & _ & _ & _ & _ & H).
  apply H; [reflexivity | right; exists 0; split; [reflexivity | lia]].
Defined.

(** ** Compensation (C4) *)

(** C4.  A gated request run alone from a world with no row locked always
    ends; and if the gate let it through and a later ledger step (begin,
    decrement, order insert or commit) returned an error, then the request
    issued the compensating INCR on the counter, answered 500 with no
    success counted and one failure counted, and, the INCR itself having
    been answered by Redis, left the whole keyspace, so the cache counter,
    as it was before the request. *)
Theorem compensation_restores_cache t es req w :
  no_locks w = true →
  ∃ resp w' log,
    run_alone t es (PurchaseRedisPostgres (Some req)) w = Some (resp, w', log)
    ∧ (gate_passed log = true → ledger_failed log = true →
       incr_issued "product:1:stock" log = true
       ∧ code resp = StatusInternalServerError
       ∧ success (stats w') = success (stats w)
       ∧ failed (stats w') = wrap64 (failed (stats w) + 1)
       ∧ (incr_applied "product:1:stock" log = true →
          rdb w' = rdb w ∧ CacheCounter w' = CacheCounter w)).
Proof.
  intros Hn. pose proof Hn as Hn'. apply bool_decide_eq_true in Hn'.
  enough (wp t es (PurchaseRedisPostgres (Some req)) w (λ resp w' log,
            gate_passed log = true → ledger_failed log = true →
            incr_issued "product:1:stock" log = true
            ∧ code resp = StatusInternalServerError
            ∧ success (stats w') = success (stats w)
            ∧ failed (stats w') = wrap64 (failed (stats w) + 1)
            ∧ (incr_applied "product:1:stock" log = true → rdb w' = rdb w))) as Hwp.
  { apply wp_run_alone in Hwp as (resp & w' & log & Hrun & H).
    exists resp, w', log. split; [done|]. intros Hg Hl.
    destruct (H Hg Hl) as (? & ? & ? & ? & Hrdb). split_and!; try done.
    intros Hi. specialize (Hrdb Hi). unfold CacheCounter. by rewrite Hrdb. }
  unfold PurchaseRedisPostgres. walk Hn.
  all: try (cbn; intros; discriminate).
  all: intros _ _; split_and!; try reflexivity.
  all: try (cbn; intros; discriminate).
  all: intros _; cbn [rdb].
  all: rewrite insert_insert_eq.
  all: replace (stock - 1 + 1) with stock by lia.
  all: by rewrite insert_id.
Qed.

Lemma compensation_restores_cache_witness :
  no_locks reset_world = true
  ∧ ∃ resp w' log,
      run_alone 0 (failing_at 5) (PurchaseRedisPostgres (buyer 7)) reset_world
        = Some (resp, w', log)
      ∧ gate_passed log = true ∧ ledger_failed log = true
      ∧ incr_applied "product:1:stock" log = true
      ∧ code resp = StatusInternalServerError
      ∧ CacheCounter w' = CacheCounter reset_world.
Proof.
  split; [reflexivity|].
  destruct (compensation_restores_cache 0 (failing_at 5)
              {| UserID := 7; ProductID := 1 |} reset_world eq_refl)
    as (resp & w' & log & Hrun & H).
  exists resp, w', log. split; [exact Hrun|].
  assert (Hlog : log = [Call (AddInt64 TotalRequests 1) ();
                        Call (Rdb_Eval luaScript ["product:1:stock"]) (99, nil);
                        Call DB_Begin nil;
                        Call (Tx_Exec (UpdateDecrement 1)) nil;
                        Call (Tx_Exec (InsertOrder 7 1)) nil;
                        Call Tx_Commit Failed;
                        Call (Rdb_Incr "product:1:stock") (100, nil);
                        Call (AddInt64 FailCount 1) ();
                        Call Tx_Rollback Failed]).
  { vm_compute in Hrun. by injection Hrun as _ _ <-. }
  assert (Hg : gate_passed log = true) by (by rewrite Hlog).
  assert (Hl : ledger_failed log = true) by (by rewrite Hlog).
  assert (Hi : incr_applied "product:1:stock" log = true) by (by rewrite Hlog).
  destruct (H Hg Hl) as (_ & Hcode & _ & _ & Hrdb).
  split_and!; [done | done | done | done | by apply Hrdb].
Defined.

(** ** Faults and partial changes (C5) *)

(** C5, as stated, fails for the unprotected strategy: a request whose
    user id does not fit the [INT] column reads the stock, decrements it,
    and only then has its order refused; it answers 500 and leaves the
    quantity at 99 with no order. *)
Lemma naive_fault_keeps_decrement : ¬ aborts_cleanly PurchaseNaive.
Proof.
  intros H.
  destruct (run_alone 0 [] (PurchaseNaive (Some {| UserID := 3000000000; ProductID := 1 |}))
              reset_world) as [[[resp w'] log]|] eqn:Hrun; [|by vm_compute in Hrun].
  destruct (H 0%nat [] _ reset_world resp w' log eq_refl Hrun) as [Hp _].
  - vm_compute in Hrun. by injection Hrun as <- _ _.
  - assert (Hq : Product_quantity w' = Some 99).
    { vm_compute in Hrun. by injection Hrun as _ <- _. }
    unfold Product_quantity in Hq. rewrite Hp in Hq. by vm_compute in Hq.
Qed.

(** C5, amended.  The locked and the gated strategy abort cleanly: an
    answer 500 leaves every quantity and the orders as they were.  The
    unprotected strategy leaves the orders as they were, and the quantities
    too unless the step that failed is the order insert, which comes after
    the decrement has been written: then the requested product has lost one
    unit.  Run alone from a world with no row locked, each of the three
    ends. *)
Theorem faults_abort_cleanly :
  aborts_cleanly PurchasePostgresLock
  ∧ aborts_cleanly PurchaseRedisPostgres
  ∧ (∀ t es c w, no_locks w = true →
       ∃ resp w' log, run_alone t es (PurchaseNaive c) w = Some (resp, w', log)
         ∧ (code resp = StatusInternalServerError →
            orders w' = orders w
            ∧ (body resp ≠ JError "Order failed" → products w' = products w)
            ∧ (body resp = JError "Order failed" →
               ∃ req q, c = Some req
                 ∧ products w !! ProductID req = Some {| quantity := q; xlock := None |}
                 ∧ products w'
                   = <[ProductID req := {| quantity := q - 1; xlock := None |}]>
                       (products w))))
  ∧ (∀ t es c w, no_locks w = true →
       is_Some (run_alone t es (PurchasePostgresLock c) w)
       ∧ is_Some (run_alone t es (PurchaseRedisPostgres c) w)).
Proof.
  assert (Hlock : ∀ t es c w, no_locks w = true →
            wp t es (PurchasePostgresLock c) w (λ resp w' _,
              code resp = StatusInternalServerError →
              products w' = products w ∧ orders w' = orders w)).
  { intros t es [req|] w Hn; pose proof Hn as Hn'; apply bool_decide_eq_true in Hn';
      unfold PurchasePostgresLock; walk Hn.
    all: try (intros; split; reflexivity).
    all: try (cbn; intros; discriminate).
    all: intros _; cbn [lock_row].
    all: rewrite ?insert_insert_eq.
    all: split; [first [by apply release_unlocked | by apply release_after_lock]
                | reflexivity]. }
  assert (Hgate : ∀ t es c w, no_locks w = true →
            wp t es (PurchaseRedisPostgres c) w (λ resp w' _,
              code resp = StatusInternalServerError →
              products w' = products w ∧ orders w' = orders w)).
  { intros t es [req|] w Hn; pose proof Hn as Hn'; apply bool_decide_eq_true in Hn';
      unfold PurchaseRedisPostgres; walk Hn.
    all: try (intros; split; reflexivity).
    all: try (cbn; intros; discriminate).
    all: intros _; cbn [lock_row].
    all: split; [first [by apply release_unlocked | by apply release_after_lock]
                | reflexivity]. }
  split_and!.
  - intros t es c w resp w' log Hn Hrun. specialize (Hlock t es c w Hn).
    apply wp_run_alone in Hlock as (? & ? & ? & Hrun' & H).
    rewrite Hrun in Hrun'. by injection Hrun' as <- <- <-.
  - intros t es c w resp w' log Hn Hrun. specialize (Hgate t es c w Hn).
    apply wp_run_alone in Hgate as (? & ? & ? & Hrun' & H).
    rewrite Hrun in Hrun'. by injection Hrun' as <- <- <-.
  - intros t es [req|] w Hn; apply wp_run_alone; unfold PurchaseNaive; walk Hn.
    all: try (cbn; intros; discriminate).
    all: intros _; split_and!; try reflexivity; try done.
    all: try (intros; exfalso; congruence).
    all: intros _; eexists _, _; split_and!; try done.
  - intros t es c w Hn. split.
    + specialize (Hlock t es c w Hn).
      apply wp_run_alone in Hlock as (? & ? & ? & -> & _). by eexists.
    + specialize (Hgate t es c w Hn).
      apply wp_run_alone in Hgate as (? & ? & ? & -> & _). by eexists.
Qed.

Lemma faults_abort_cleanly_witness :
  no_locks reset_world = true
  ∧ ∃ w' log,
      run_alone 0 (failing_at 5) (PurchasePostgresLock (buyer 7)) reset_world
        = Some (JSON StatusInternalServerError (JError "Commit failed"), w', log)
      ∧ products w' = products reset_world ∧ orders w' = orders reset_world.
Proof.
  split; [reflexivity|].
  destruct (run_alone 0 (failing_at 5) (PurchasePostgresLock (buyer 7)) reset_world)
    as [[[resp w'] log]|] eqn:Hrun; [|by vm_compute in Hrun].
  assert (Hresp : resp = JSON StatusInternalServerError (JError "Commit failed")).
  { vm_compute in Hrun. by injection Hrun as <- _ _. }
  subst resp. exists w', log. split; [reflexivity|].
  destruct faults_abort_cleanly as (H & _).
  apply (H 0%nat (failing_at 5) (buyer 7) reset_world _ w' log eq_refl Hrun).
  reflexivity.
Defined.

(** ** The key of the gate (C6) *)

(** C6 does not hold of the code: the gate always runs on the key of
    product 1, whatever product the request names, while the ledger
    statement decrements the product of the request.  At the reset state a
    request for product 2 takes a unit from the counter of product 1 before
    its order is refused and the unit given back; with a second product in
    the ledger, the request decrements the quantity of product 2 and the
    cache counter of product 1, and leaves the cache entry of product 2
    alone; and with the counter of product 1 at zero, product 2 is reported
    out of stock with 5 in the ledger. *)
Theorem gate_key_ignores_requested_product :
  (∀ t es req w, no_locks w = true →
     ∃ resp w' log,
       run_alone t es (PurchaseRedisPostgres (Some req)) w = Some (resp, w', log)
       ∧ gate_keys log = ["product:1:stock"]
       ∧ (decrement_targets log = [] ∨ decrement_targets log = [ProductID req]))
  ∧ (∃ w' log,
       run_alone 0 [] (PurchaseRedisPostgres (Some {| UserID := 7; ProductID := 2 |}))
         reset_world
         = Some (JSON StatusInternalServerError (JError "Order failed"), w', log)
       ∧ gate_keys log = ["product:1:stock"]
       ∧ decrement_targets log = [2]
       ∧ gate_reply <$> log !! 1%nat = Some (Some 99))
  ∧ (∃ w' log,
       run_alone 0 [] (PurchaseRedisPostgres (Some {| UserID := 7; ProductID := 2 |}))
         two_products
         = Some (JSON StatusOK (JPurchase "redis_postgres" 0), w', log)
       ∧ gate_keys log = ["product:1:stock"]
       ∧ decrement_targets log = [2]
       ∧ quantity <$> products w' !! 2 = Some 4
       ∧ quantity <$> products w' !! 1 = Some 100
       ∧ rdb w' !! "product:1:stock" = Some 99
       ∧ rdb w' !! "product:2:stock" = Some 5)
  ∧ (∃ w' log,
       run_alone 0 [] (PurchaseRedisPostgres (Some {| UserID := 7; ProductID := 2 |}))
         (cache_at 0 two_products)
         = Some (JSON StatusBadRequest (JError "Out of stock!"), w', log)
       ∧ quantity <$> products w' !! 2 = Some 5
       ∧ rdb w' !! "product:2:stock" = Some 5).
Proof.
  split_and!.
  - intros t es req w Hn. apply wp_run_alone. unfold PurchaseRedisPostgres. walk Hn.
    all: split; [reflexivity|]; cbn; auto.
  - eexists _, _. split; [vm_compute; reflexivity|]. by vm_compute.
  - eexists _, _. split; [vm_compute; reflexivity|]. by vm_compute.
  - eexists _, _. split; [vm_compute; reflexivity|]. by vm_compute.
Qed.

(** ** Reset (C8) *)

(** C8.  With the environment failing no call, from any world that has
    product 1 and no locked row, reset answers 200 and leaves quantity 100,
    cache counter 100, no order and all five counters at zero; a second
    reset right after answers the same and leaves exactly the same world. *)
Theorem reset_idempotent t es1 es2 w r :
  all_calm es1 = true → all_calm es2 = true →
  no_locks w = true → products w !! 1 = Some r →
  ∃ w1 log1 log2 msg,
    run_alone t es1 reset w = Some (JSON 200 (JMessage msg), w1, log1)
    ∧ run_alone t es2 reset w1 = Some (JSON 200 (JMessage msg), w1, log2)
    ∧ Product_quantity w1 = Some initialCapacity
    ∧ CacheCounter w1 = Some initialCapacity
    ∧ orders w1 = []
    ∧ stats w1 = zero_stats.
Proof.
  intros Hc1 Hc2 Hn Hr.
  assert (Hone : ∀ es w r, all_calm es = true → no_locks w = true →
            products w !! 1 = Some r →
            wp t es reset w (λ resp w' _,
              resp = JSON 200 (JMessage "✅ Stock reset to 100, orders cleared, stats reset!")
              ∧ w' = {| products := <[1 := {| quantity := 100; xlock := None |}]> (products w);
                        orders := []; txs := txs w;
                        rdb := <["product:1:stock" := 100]> (rdb w);
                        stats := zero_stats |})).
  { clear. intros es w r Hc Hn Hr.
    pose proof (all_calm_hd _ Hc) as F0. apply all_calm_tl in Hc.
    pose proof (all_calm_hd _ Hc) as F1. apply all_calm_tl in Hc.
    pose proof (all_calm_hd _ Hc) as F2.
    pose proof (no_locks_lookup _ _ _ Hn Hr) as Hl. destruct r as [q l]. simpl in Hl. subst l.
    unfold reset. walk Hn. done. }
  destruct (proj1 (wp_run_alone _ _ _ _ _) (Hone es1 w r Hc1 Hn Hr))
    as (resp1 & w1 & log1 & Hrun1 & -> & Hw1).
  assert (Hn1 : no_locks w1 = true).
  { subst w1. apply bool_decide_eq_true. cbn [products].
    apply map_Forall_insert_2; [done|]. by apply bool_decide_eq_true in Hn. }
  assert (Hr1 : products w1 !! 1 = Some {| quantity := 100; xlock := None |}).
  { subst w1. cbn [products]. apply lookup_insert_eq. }
  destruct (proj1 (wp_run_alone _ _ _ _ _) (Hone es2 w1 _ Hc2 Hn1 Hr1))
    as (resp2 & w2 & log2 & Hrun2 & -> & Hw2).
  assert (w2 = w1) as ->.
  { rewrite Hw2. rewrite Hw1 at 3. subst w1. cbn [products txs rdb].
    by rewrite !insert_insert_eq. }
  eexists w1, log1, log2, _. split_and!; [done | done | | | |]; subst w1.
  - unfold Product_quantity. cbn [products]. by rewrite lookup_insert_eq.
  - unfold CacheCounter. cbn [rdb]. by rewrite lookup_insert_eq.
  - done.
  - done.
Qed.

Lemma reset_idempotent_witness :
  ∃ w1 log1 log2 msg,
    run_alone 0 [] reset (quantity_at (-3) (cache_at 7 reset_world))
      = Some (JSON 200 (JMessage msg), w1, log1)
    ∧ run_alone 0 [] reset w1 = Some (JSON 200 (JMessage msg), w1, log2)
    ∧ Product_quantity w1 = Some initialCapacity
    ∧ CacheCounter w1 = Some initialCapacity
    ∧ orders w1 = []
    ∧ stats w1 = zero_stats.
Proof.
  apply (reset_idempotent 0 [] [] (quantity_at (-3) (cache_at 7 reset_world))
           {| quantity := -3; xlock := None |}); reflexivity.
Defined.

(** ** Cache resynchronisation (C9) *)

(** C9.  syncCache never waits; when it answers 200 the cache counter is
    the ledger quantity of product 1, or 0 if that is negative, whatever
    the counter held before, and products and orders are as they were. *)
Theorem syncCache_clamps t es w :
  ∃ resp w' log,
    run_alone t es syncCache w = Some (resp, w', log)
    ∧ (code resp = StatusOK →
       ∃ q, Product_quantity w = Some q
            ∧ CacheCounter w' = Some (Z.max 0 q)
            ∧ resp = JSON 200 (JSynced (Z.max 0 q))
            ∧ products w' = products w ∧ orders w' = orders w).
Proof.
  apply wp_run_alone. unfold syncCache. walk I.
  all: try (cbn; intros; discriminate).
  all: intros _; eexists; unfold Product_quantity, CacheCounter; world_simpl.
  all: match goal with H : products _ !! 1 = _ |- _ => rewrite H end.
  all: (split; [reflexivity|]); rewrite lookup_insert_eq; world_simpl.
  - replace (0 `max` q) with 0 by lia. done.
  - replace (0 `max` q) with q by lia. done.
Qed.

Lemma syncCache_clamps_witness :
  ∃ resp w' log,
    run_alone 0 [] syncCache (quantity_at (-3) (cache_at 7 reset_world))
      = Some (resp, w', log)
    ∧ code resp = StatusOK
    ∧ CacheCounter (quantity_at (-3) (cache_at 7 reset_world)) = Some 7
    ∧ Product_quantity (quantity_at (-3) (cache_at 7 reset_world)) = Some (-3)
    ∧ CacheCounter w' = Some 0.
Proof.
  destruct (syncCache_clamps 0 [] (quantity_at (-3) (cache_at 7 reset_world)))
    as (resp & w' & log & Hrun & H).
  exists resp, w', log. split; [exact Hrun|].
  assert (Hcode : code resp = StatusOK).
  { vm_compute in Hrun. by injection Hrun as <- _ _. }
  destruct (H Hcode) as (q & Hq & Hc & _).
  assert (q = -3) as -> by (vm_compute in Hq; by injection Hq).
  split_and!; [done | reflexivity | reflexivity | exact Hc].
Defined.

(** ** The oversell counter (C10) *)

Lemma oversell_free_handler r c : oversell_free (handler r c).
Proof.
  destruct r, c as [req|]; cbn;
    repeat first
      [ progress intros
      | split
      | discriminate
      | reflexivity
      | match goal with
        | x : Z * error |- _ => destruct x as [? []]
        | x : error |- _ => destruct x
        | x : unit |- _ => destruct x
        | |- context [if ?b then _ else _] => destruct b
        end
      | progress cbn ].
Qed.

(** Only the two counter-writing operations change the counters. *)
Lemma exec_op_stats t ε {X} (e : Op X) w x w' :
  exec_op t ε e w = Done x w' →
  match e with AddInt64 _ _ | StoreInt64 _ _ => True | _ => stats w' = stats w end.
Proof.
  destruct e; cbn; try done;
    unfold db_query, db_exec, db_update, tx_query, tx_exec, tx_update;
    intros; repeat case_match; simplify_eq; reflexivity.
Qed.

Lemma oversell_free_step t ε {X} (e : Op X) k w x w' :
  exec_op t ε e w = Done x w' →
  oversells (stats w) = 0 → oversell_free (Vis e k) →
  oversells (stats w') = 0 ∧ oversell_free (k x).
Proof.
  intros Hexec H0 Hfree. pose proof (exec_op_stats _ _ _ _ _ _ Hexec) as Hstats.
  destruct e; cbn in Hfree, Hstats; try (rewrite Hstats; split; [done | apply Hfree]).
  - destruct Hfree as [Hc Hk]. cbn in Hexec. simplify_eq. split; [|done].
    by destruct c.
  - cbn in Hexec. simplify_eq. split; [done|].
    case_bool_decide as Hc; [|done]. subst c. cbn. by rewrite H0.
  - destruct Hfree as [Hc Hk]. cbn in Hexec. simplify_eq. split; [|done].
    destruct c; try done. by apply Hc.
Qed.

Lemma oversell_inv_step ev c : oversell_inv c → oversell_inv (step ev c).
Proof.
  intros [H0 Hth]. destruct ev as [r b | t ε]; cbn [step].
  - split; [done|]. cbn. intros t p [Hp | [_ Hp]]%lookup_app_Some; [by eapply Hth|].
    apply list_lookup_singleton_Some in Hp as [_ <-]. apply oversell_free_handler.
  - destruct (threads c !! t) as [[r | X e k]|] eqn:Ht; try done.
    destruct (exec_op t ε e (world c)) as [|x w'] eqn:Hexec; [done|].
    destruct (oversell_free_step _ _ _ k _ _ _ Hexec H0 (Hth _ _ Ht)) as [H0' Hk].
    split; [done|]. cbn. intros u p Hu.
    apply list_lookup_insert_Some in Hu as [(-> & <- & _) | [_ Hu]]; [done | by eapply Hth].
Qed.

Lemma oversell_inv_run evs c : oversell_inv c → oversell_inv (run evs c).
Proof.
  revert c. induction evs as [|ev evs IH]; intros c Hc; [done|].
  cbn. apply IH. by apply oversell_inv_step.
Qed.

(** C10.  No handler has an operation that adds to [OversellCount] or stores
    anything but zero in it.  So from a start with the counter at zero (the
    process start, or any reset), after any interleaving of any requests on
    any routes, with any faults, the counter is zero and every stats answer
    given so far reports zero oversells. *)
Theorem oversell_counter_stays_zero evs w0 :
  oversells (stats w0) = 0 →
  (∀ r c, oversell_free (handler r c))
  ∧ oversells (stats (world (run evs {| world := w0; threads := [] |}))) = 0
  ∧ ∀ t resp,
      threads (run evs {| world := w0; threads := [] |}) !! t = Some (Ret resp) →
      reports_no_oversell resp.
Proof.
  intros H0. split; [apply oversell_free_handler|].
  assert (oversell_inv (run evs {| world := w0; threads := [] |})) as [Hs Hth].
  { apply oversell_inv_run. split; [done|]. by intros t p. }
  split; [done|]. intros t resp Ht. exact (Hth _ _ Ht).
Qed.

Lemma oversell_counter_stays_zero_witness :
  oversells (stats reset_world) = 0
  ∧ oversells (stats (world (run race_then_stats reset_config))) = 0
  ∧ ∃ resp,
      threads (run race_then_stats reset_config) !! 101%nat = Some (Ret resp)
      ∧ reports_no_oversell resp
      ∧ body resp = JStats 101 101 0 0 (0, 101) (-1) 100 101.
Proof.
  destruct (oversell_counter_stays_zero race_then_stats reset_world eq_refl)
    as (_ & H0 & Hr).
  split; [reflexivity|]. split; [exact H0|].
  exists (JSON 200 (JStats 101 101 0 0 (0, 101) (-1) 100 101)).
  assert (Ht : threads (run race_then_stats reset_config) !! 101%nat
               = Some (Ret (JSON 200 (JStats 101 101 0 0 (0, 101) (-1) 100 101))))
    by (vm_compute; reflexivity).
  split; [exact Ht|]. split; [exact (Hr _ _ Ht) | reflexivity].
Defined.

(** ** The load harness (C7) *)

Lemma js_slice_chunk {A} (l : list A) (i b : Z) :
  0 ≤ i → 0 < b →
  js_slice l i (i + b) = take (Z.to_nat b) (drop (Z.to_nat i) l).
Proof.
  intros Hi Hb. unfold js_slice.
  destruct (i <? 0) eqn:E1; [lia|]. destruct (i + b <? 0) eqn:E2; [lia|].
  destruct (decide (Z.of_nat (length l) ≤ i)) as [Hle|Hlt].
  - rewrite (drop_ge l (Z.to_nat i)) by lia.
    rewrite (drop_ge l (Z.to_nat (i `min` Z.of_nat (length l)))) by lia.
    by rewrite !take_nil.
  - replace (i `min` Z.of_nat (length l)) with i by lia.
    destruct (decide (i + b ≤ Z.of_nat (length l))).
    + replace ((i + b) `min` Z.of_nat (length l) - i) with b by lia. done.
    + replace ((i + b) `min` Z.of_nat (length l) - i) with (Z.of_nat (length l) - i) by lia.
      rewrite !take_ge; [done | |]; rewrite length_drop; lia.
Qed.

(** With a batch size of one or more the loop ends, and its batches are the
    consecutive chunks of the tasks that are left. *)
Lemma runBatch_from_chunks {A} (tasks : list A) (b : Z) :
  0 < b →
  ∀ (fuel : nat) (i : Z),
    0 ≤ i → 0 `max` (Z.of_nat (length tasks) - i) < Z.of_nat fuel →
    ∃ bs, runBatch_from fuel tasks b i = Some bs
          ∧ concat bs = drop (Z.to_nat i) tasks
          ∧ Forall (λ x, 1 ≤ Z.of_nat (length x) ≤ b) bs
          ∧ ∀ j x, bs !! j = Some x → (S j < length bs)%nat → Z.of_nat (length x) = b.
Proof.
  intros Hb. induction fuel as [|fuel IH]; intros i Hi Hfuel.
  - lia.
  - cbn [runBatch_from]. destruct (i <? Z.of_nat (length tasks)) eqn:E.
    + apply Z.ltb_lt in E.
      destruct (IH (i + b)) as (bs & -> & Hcat & Hall & Hfull); [lia | lia |].
      eexists. split; [reflexivity|].
      rewrite js_slice_chunk by lia. split_and!.
      * cbn [concat]. rewrite Hcat.
        replace (Z.to_nat (i + b)) with (Z.to_nat i + Z.to_nat b)%nat by lia.
        rewrite <- drop_drop. apply take_drop.
      * constructor; [|done]. rewrite length_take, length_drop. lia.
      * intros [|j] x Hx Hj; cbn in Hx, Hj.
        -- injection Hx as <-. rewrite length_take, length_drop.
           destruct bs as [|b0 bs]; [cbn in Hj; lia|].
           apply Forall_cons in Hall as [Hb0 _].
           assert (Hne : concat (b0 :: bs) ≠ []) by (destruct b0; [cbn in Hb0; lia | done]).
           rewrite Hcat in Hne.
           assert (Z.to_nat (i + b) < length tasks)%nat.
           { destruct (decide (Z.to_nat (i + b) < length tasks)%nat); [done|].
             rewrite drop_ge in Hne by lia. done. }
           lia.
        -- apply (Hfull j x Hx). lia.
    + apply Z.ltb_ge in E. exists []. split; [done|]. split_and!.
      * by rewrite drop_ge by lia.
      * constructor.
      * intros j x Hx. done.
Qed.

(** With a batch size of zero or less and something to send, the loop never
    ends: the index never passes the end of the array. *)
Lemma runBatch_from_diverges {A} (tasks : list A) (b : Z) (fuel : nat) (i : Z) :
  b ≤ 0 → i < Z.of_nat (length tasks) → runBatch_from fuel tasks b i = None.
Proof.
  intros Hb. revert i. induction fuel as [|fuel IH]; intros i Hi; [done|].
  cbn [runBatch_from]. destruct (i <? Z.of_nat (length tasks)) eqn:E.
  - rewrite IH by lia. done.
  - apply Z.ltb_ge in E. lia.
Qed.

Lemma pending_after_app n tr1 tr2 :
  pending_after n (tr1 ++ tr2) = pending_after (pending_after n tr1) tr2.
Proof. revert n. induction tr1 as [|[]]; intros n; cbn; auto. Qed.

Lemma peak_from_app n tr1 tr2 :
  peak_from n (tr1 ++ tr2) = peak_from n tr1 `max` peak_from (pending_after n tr1) tr2.
Proof.
  revert n. induction tr1 as [|[] tr1 IH]; intros n; cbn.
  - assert (n ≤ peak_from n tr2) by (destruct tr2 as [|[]]; cbn; lia). lia.
  - rewrite IH. lia.
  - rewrite IH. lia.
Qed.

Lemma dispatch_all n (b : list nat) :
  pending_after n (Dispatch <$> b) = n + Z.of_nat (length b)
  ∧ peak_from n (Dispatch <$> b) = n + Z.of_nat (length b).
Proof.
  revert n. induction b as [|x b IH]; intros n; cbn; [lia|].
  destruct (IH (n + 1)) as [-> ->]. lia.
Qed.

Lemma settle_all n (p : list nat) :
  pending_after n (Settle <$> p) = n - Z.of_nat (length p)
  ∧ peak_from n (Settle <$> p) = n.
Proof.
  revert n. induction p as [|x p IH]; intros n; cbn; [lia|].
  destruct (IH (n - 1)) as [-> ->]. lia.
Qed.

(** A batch starts with what was pending, peaks at that plus its size, and
    ends with what was pending. *)
Lemma batch_trace_peak n b tr :
  batch_trace b tr →
  pending_after n tr = n ∧ peak_from n tr = n + Z.of_nat (length b).
Proof.
  intros [b' p Hp]. rewrite pending_after_app, peak_from_app.
  destruct (dispatch_all n b') as [-> ->].
  destruct (settle_all (n + Z.of_nat (length b')) p) as [-> ->].
  apply Permutation_length in Hp. lia.
Qed.

Lemma harness_trace_peak (c : Z) bs tr :
  0 ≤ c → Forall (λ b : list nat, Z.of_nat (length b) ≤ c) bs →
  harness_trace bs tr → pending_after 0 tr = 0 ∧ peak tr ≤ c.
Proof.
  intros Hc Hall Htr. unfold peak. induction Htr as [|b bs tr trs Hb Htrs IH]; [cbn; lia|].
  apply Forall_cons in Hall as [Hlen Hall]. destruct (IH Hall) as [IH1 IH2].
  destruct (batch_trace_peak 0 _ _ Hb) as [Hp Hk].
  rewrite pending_after_app, peak_from_app, Hp, Hk. lia.
Qed.

(** C7.  For a concurrency of one or more, [runBatch] ends (with fuel above
    the number of tasks) and cuts the requested attempts, in order and
    without loss, into batches: none empty, none above the concurrency, all
    but the last exactly of that size.  In every run of these batches (each
    batch sent whole, the next one only when all of its answers are back)
    nothing is pending at the end and at no moment are more attempts in
    flight than the concurrency. *)
Theorem runBatch_bounds_in_flight (requestCount : nat) (concurrency : Z) (fuel : nat) :
  1 ≤ concurrency → (requestCount < fuel)%nat →
  ∃ batches,
    runBatch fuel (tasks_of requestCount) concurrency = Some batches
    ∧ concat batches = tasks_of requestCount
    ∧ Forall (λ b, 1 ≤ Z.of_nat (length b) ≤ concurrency) batches
    ∧ (∀ j b, batches !! j = Some b → (S j < length batches)%nat →
              Z.of_nat (length b) = concurrency)
    ∧ (∀ b tr, b ∈ batches → batch_trace b tr → pending_after 0 tr = 0)
    ∧ ∀ tr, harness_trace batches tr → pending_after 0 tr = 0 ∧ peak tr ≤ concurrency.
Proof.
  intros Hc Hfuel.
  destruct (runBatch_from_chunks (tasks_of requestCount) concurrency ltac:(lia) fuel 0)
    as (bs & Hrun & Hcat & Hall & Hfull); [lia | |].
  { unfold tasks_of. rewrite length_seq. lia. }
  exists bs. split_and!; try done.
  - intros b tr _ Hb. by destruct (batch_trace_peak 0 _ _ Hb).
  - intros tr Htr. apply (harness_trace_peak concurrency bs); [lia | | done].
    eapply Forall_impl; [exact Hall|]. cbn. lia.
Qed.

Lemma runBatch_bounds_in_flight_witness :
  ∃ batches,
    runBatch 8 (tasks_of 7) 3 = Some batches
    ∧ batches = [[0; 1; 2]; [3; 4; 5]; [6]]%nat
    ∧ ∀ tr, harness_trace batches tr → pending_after 0 tr = 0 ∧ peak tr ≤ 3.
Proof.
  destruct (runBatch_bounds_in_flight 7 3 8) as (bs & Hrun & _ & _ & _ & _ & Hpeak);
    [lia | lia |].
  exists bs. split; [exact Hrun|]. split; [|exact Hpeak].
  vm_compute in Hrun. by injection Hrun as <-.
Defined.

(** The degenerate settings of the dashboard: nothing checks the
    concurrency field, and with zero or a negative number in it the loop
    never ends; with -1 it first sends all attempts but the last at once. *)
Remark runBatch_nonpositive_concurrency (requestCount : nat) (concurrency : Z) (fuel : nat) :
  concurrency ≤ 0 → (0 < requestCount)%nat →
  runBatch fuel (tasks_of requestCount) concurrency = None
  ∧ js_slice (tasks_of 5) 0 (0 + -1) = [0; 1; 2; 3]%nat.
Proof.
  intros Hc Hn. split; [|reflexivity]. apply runBatch_from_diverges; [done|].
  unfold tasks_of. rewrite length_seq. lia.
Qed.

(** The stand-alone script is not batched: with all its goroutines started
    before any returns, 500 attempts are in flight. *)
Remark attack_script_unbounded : peak attack_burst = 500.
Proof. by vm_compute. Qed.

(** ** No oversell under the lock and under the gate (C1) *)

Lemma step_vis c t ε {X} (e : Op X) k :
  threads c !! t = Some (Vis e k) →
  step (Step t ε) c
  = match exec_op t ε e (world c) with
    | Done x w' => {| world := w'; threads := <[t := k x]> (threads c) |}
    | Blocked => c
    end.
Proof. intros H. cbn. by rewrite H. Qed.

Lemma threads_update (T T' : nat → prog Response → Prop) (ts : list (prog Response)) t p' :
  (∀ u p, ts !! u = Some p → T u p) →
  T' t p' →
  (∀ u p, u ≠ t → T u p → T' u p) →
  ∀ u p, <[t := p']> ts !! u = Some p → T' u p.
Proof.
  intros H Ht Hs u p Hu.
  apply list_lookup_insert_Some in Hu as [(-> & <- & _) | [Hne Hu]]; eauto.
Qed.

Lemma closing_bind {A B} (p : prog A) (f : A → prog B) :
  closing p → (∀ r, closing (f r)) → closing (p ≫= f).
Proof.
  intros Hp Hf. induction p as [r | X e k IH]; cbn; [apply Hf|].
  destruct Hp as [He Hk]. split; [done|]. intros x. by apply IH.
Qed.

Lemma closing_fail_with s m : closing (fail_with s m).
Proof. by cbn. Qed.

Lemma closing_succeed m : closing (succeed m).
Proof. by cbn. Qed.

Lemma closing_defer (p : prog Response) : closing p → closing (defer (call Tx_Rollback) p).
Proof. intros Hp. apply closing_bind; [done|]. by cbn. Qed.

Lemma closing_stats_handler : closing stats_handler.
Proof. cbn. repeat (split; [done|]; intros []); repeat (split; [done|]; intros ?); done. Qed.

(** A passive operation never waits and leaves quantity, orders and cache
    alone; it can only release the request's own lock. *)
Lemma passive_exec t ε {X} (e : Op X) w q l :
  passive e = true →
  products w = {[ 1 := {| quantity := q; xlock := l |} ]} →
  ∃ x w' l',
    exec_op t ε e w = Done x w'
    ∧ products w' = {[ 1 := {| quantity := q; xlock := l' |} ]}
    ∧ (∀ u, u ≠ t → l = Some u → l' = Some u)
    ∧ orders w' = orders w ∧ rdb w' = rdb w
    ∧ (∀ u, u ≠ t → txs w' !! u = txs w !! u).
Proof.
  intros He Hprod.
  destruct e; try discriminate He; cbn [exec_op].
  1-5: by eexists _, _, l.
  - destruct q0; try discriminate He; cbn [db_query];
      repeat case_match; by eexists _, _, l.
  - destruct (txs w !! t); [|by eexists _, _, l].
    eexists _, _, _. split; [reflexivity|]. cbn. rewrite Hprod, map_fmap_singleton. cbn.
    split_and!; try done.
    + intros u Hu ->. rewrite bool_decide_eq_false_2; [done | by intros [= ?]].
    + intros u Hu. by rewrite lookup_delete_ne.
  - repeat case_match; by eexists _, _, l.
Qed.

Lemma locked_thread_stable t u w w' p :
  u ≠ t →
  locked_thread u w p →
  txs w' !! u = txs w !! u →
  (∀ q, holds u q w → holds u q w') →
  locked_thread u w' p.
Proof.
  intros Hne Hp Htx Hh.
  destruct Hp; [by apply lt_closing | apply lt_entry | apply lt_begin | | | |].
  - apply lt_select. by rewrite Htx.
  - apply lt_check; [done | by rewrite Htx | by apply Hh].
  - eapply lt_insert; [done | done | by rewrite Htx | by apply Hh].
  - eapply lt_commit; [done | done | by rewrite Htx | by apply Hh].
Qed.

Lemma locked_passive_step c t ε {X} (e : Op X) k :
  locked_inv c → threads c !! t = Some (Vis e k) → passive e = true →
  (∀ x w', locked_thread t w' (k x)) →
  locked_inv (step (Step t ε) c).
Proof.
  intros [(q & l & Hprod & Hq & Hq0) Hth] Ht He Hk.
  rewrite (step_vis _ _ _ _ _ Ht).
  destruct (passive_exec t ε e (world c) q l He Hprod)
    as (x & w' & l' & -> & Hprod' & Hl & Ho & Hr & Htx).
  split; cbn [world threads].
  - exists q, l'. unfold successfulOrders. by rewrite Ho.
  - apply (threads_update (λ u p, locked_thread u (world c) p)); [done | apply Hk |].
    intros u p Hne Hp.
    apply (locked_thread_stable t u (world c)); [done | done | by apply Htx |].
    intros q0. unfold holds. rewrite Hprod, Hprod', !lookup_singleton_eq.
    intros [= -> ->]. by rewrite (Hl u).
Qed.

(** A step that leaves the world alone and the request with passive
    operations only. *)
Lemma locked_quit_step c t (p' : prog Response) :
  locked_inv c → closing p' →
  locked_inv {| world := world c; threads := <[t := p']> (threads c) |}.
Proof.
  intros [Hl Hth] Hp'. split; [done|]. cbn [world threads].
  apply (threads_update (λ u p, locked_thread u (world c) p)); [done | by apply lt_closing | done].
Qed.

(** The first operation at each point of the locked strategy, and what is
    left after each of its answers. *)
Lemma lock_check_out_of_stock req q : q ≤ 0 → closing (lock_check req q).
Proof.
  intros Hq. unfold lock_check. cbn. destruct (q <=? 0) eqn:E; [|lia]. by cbn.
Qed.

Lemma lock_check_head req q :
  0 < q →
  ∃ k, lock_check req q = Vis (Tx_Exec (UpdateDecrement (ProductID req))) k
       ∧ k nil = lock_insert req ∧ closing (k Failed).
Proof.
  intros Hq. unfold lock_check. cbn. destruct (q <=? 0) eqn:E; [lia|].
  eexists. split; [reflexivity|]. split; [reflexivity | by cbn].
Qed.

Lemma lock_insert_head req :
  ∃ k, lock_insert req = Vis (Tx_Exec (InsertOrder (UserID req) (ProductID req))) k
       ∧ k nil = lock_commit req ∧ closing (k Failed).
Proof. eexists. split; [reflexivity|]. split; [reflexivity | by cbn]. Qed.

Lemma lock_commit_head req :
  ∃ k, lock_commit req = Vis Tx_Commit k ∧ closing (k nil) ∧ closing (k Failed).
Proof. eexists. split; [reflexivity|]. split; by cbn. Qed.

Lemma locked_closing_step c t ε p :
  locked_inv c → threads c !! t = Some p → closing p →
  locked_inv (step (Step t ε) c).
Proof.
  intros Hinv Ht Hcl.
  destruct p as [r | X e k]; [by cbn; rewrite Ht|]. destruct Hcl as [He Hk].
  eapply locked_passive_step; [done | done | done |].
  intros x w'. apply lt_closing, Hk.
Qed.

Lemma in_int4_stock q : 0 < q ≤ initialCapacity → in_int4 (q - 1) = true.
Proof.
  unfold initialCapacity, in_int4, int4_min, int4_max. intros Hq.
  apply andb_true_iff. split; [apply Z.leb_le | apply Z.leb_le]; lia.
Qed.

Lemma publish_singleton t q os :
  map_imap (publish t (pending q os))
    ({[ 1 := {| quantity := q; xlock := Some t |} ]} : gmap Z Row)
  = {[ 1 := {| quantity := q - 1; xlock := None |} ]}.
Proof.
  apply map_eq. intros i. rewrite map_lookup_imap.
  destruct (decide (i = 1)) as [->|Hne].
  - rewrite !lookup_singleton_eq. cbn. unfold publish, release, tx_view, pending. cbn.
    rewrite lookup_singleton_eq. cbn. by rewrite bool_decide_eq_true_2.
  - by rewrite !lookup_singleton_ne.
Qed.

Lemma release_singleton t q :
  release t <$> ({[ 1 := {| quantity := q; xlock := Some t |} ]} : gmap Z Row)
  = {[ 1 := {| quantity := q; xlock := None |} ]}.
Proof.
  rewrite map_fmap_singleton. unfold release. cbn. by rewrite bool_decide_eq_true_2.
Qed.

Lemma locked_inv_step c t ε : locked_inv c → locked_inv (step (Step t ε) c).
Proof.
  intros Hinv. pose proof Hinv as [(q & l & Hprod & Hq & Hq0) Hth].
  destruct (threads c !! t) as [p|] eqn:Ht; [|by cbn; rewrite Ht].
  destruct (Hth _ _ Ht) as [p Hcl | c0 | req | req Htx | req q' Hpid Htx Hh
                           | req q' Hpid Hpos Htx Hh | req q' Hpid Hpos Htx Hh].
  - (* passive operations only *)
    destruct p as [r | X e k]; [by cbn; rewrite Ht|]. destruct Hcl as [He Hk].
    eapply locked_passive_step; [done | done | done |].
    intros x w'. apply lt_closing, Hk.
  - (* counting the request *)
    eapply locked_passive_step; [done | exact Ht | done |].
    intros [] w'. destruct c0 as [req|]; [apply lt_begin | by apply lt_closing].
  - (* Begin *)
    erewrite step_vis by exact Ht.
    destruct (exec_op _ _ _ _) as [|x w'] eqn:Hexec; [done|]. cbn [exec_op] in Hexec.
    destruct (fault ε); injection Hexec as <- <-.
    + by apply locked_quit_step.
    + split; cbn [world threads set_txs products orders].
      * by exists q, l.
      * apply (threads_update (λ u p, locked_thread u (world c) p)); [done | |].
        -- apply lt_select. cbn. apply lookup_insert_eq.
        -- intros u p Hne Hp. apply (locked_thread_stable t u (world c)); try done.
           cbn. by rewrite lookup_insert_ne.
  - (* SELECT ... FOR UPDATE *)
    erewrite step_vis by exact Ht.
    destruct (exec_op _ _ _ _) as [|x w'] eqn:Hexec; [done|]. cbn [exec_op] in Hexec.
    destruct (fault ε).
    { injection Hexec as <- <-. apply locked_quit_step; [done|]. by apply closing_defer. }
    unfold tx_query in Hexec. rewrite Htx, Hprod in Hexec.
    destruct (in_int4 (ProductID req)); cycle 1.
    { injection Hexec as <- <-. apply locked_quit_step; [done|]. by apply closing_defer. }
    destruct (decide (ProductID req = 1)) as [Hpid|Hpid]; cycle 1.
    { rewrite lookup_singleton_ne in Hexec by done.
      injection Hexec as <- <-. apply locked_quit_step; [done|]. by apply closing_defer. }
    rewrite Hpid, lookup_singleton_eq in Hexec.
    destruct (held_by_other (Some t) _) eqn:Hheld; [done|].
    unfold tx_view in Hexec. cbn [empty_tx tx_rows] in Hexec. rewrite lookup_empty in Hexec.
    cbn [default quantity] in Hexec. injection Hexec as <- <-.
    split; cbn [world threads set_products products orders txs].
    + exists q, (Some t). cbn. rewrite Hprod, insert_singleton_eq. done.
    + apply (threads_update (λ u p, locked_thread u (world c) p)); [done | |].
      * apply lt_check; [done | done |]. unfold holds. cbn.
        by rewrite Hprod, insert_singleton_eq, lookup_singleton_eq.
      * intros u p Hne Hp. apply (locked_thread_stable t u (world c)); try done.
        intros q0. unfold holds. rewrite Hprod, lookup_singleton_eq. intros [= -> ->].
        cbn in Hheld. by rewrite bool_decide_eq_false_2 in Hheld.
  - (* the stock check, then UPDATE *)
    unfold holds in Hh. rewrite Hprod, lookup_singleton_eq in Hh. injection Hh as <- ->.
    destruct (decide (q ≤ 0)) as [Hle|Hpos].
    { eapply locked_closing_step; [done | done | by apply lock_check_out_of_stock]. }
    destruct (lock_check_head req q) as (k & Hk & Hnil & Hfail); [lia|].
    rewrite Hk in Ht. rewrite (step_vis _ _ _ _ _ Ht).
    destruct (exec_op _ _ _ _) as [|x w'] eqn:Hexec; [done|]. cbn [exec_op] in Hexec.
    destruct (fault ε).
    { injection Hexec as <- <-. by apply locked_quit_step. }
    unfold tx_exec, tx_update in Hexec. rewrite Htx, Hprod, Hpid in Hexec.
    rewrite in_int4_1, lookup_singleton_eq in Hexec.
    cbn [held_by_other xlock] in Hexec. rewrite bool_decide_eq_true_2 in Hexec by done.
    unfold tx_view in Hexec. cbn [negb empty_tx tx_rows tx_orders tx_cleared] in Hexec.
    rewrite lookup_empty in Hexec. cbn [default quantity] in Hexec.
    rewrite in_int4_stock in Hexec by (unfold successfulOrders in Hq; lia).
    injection Hexec as <- <-. rewrite Hnil.
    split; cbn [world threads].
    + exists q, (Some t). cbn. rewrite Hprod, insert_singleton_eq. done.
    + apply (threads_update (λ u p, locked_thread u (world c) p)); [done | |].
      * apply (lt_insert _ _ _ q); [done | lia | |].
        -- cbn. rewrite lookup_insert_eq, insert_empty. done.
        -- unfold holds. cbn. by rewrite Hprod, insert_singleton_eq, lookup_singleton_eq.
      * intros u p Hne Hp. apply (locked_thread_stable t u (world c)); try done.
        -- cbn. by rewrite lookup_insert_ne.
        -- intros q0. unfold holds. rewrite Hprod, lookup_singleton_eq. by intros [= -> ->].
  - (* INSERT *)
    unfold holds in Hh. rewrite Hprod, lookup_singleton_eq in Hh. injection Hh as <- ->.
    destruct (lock_insert_head req) as (k & Hk & Hnil & Hfail).
    rewrite Hk in Ht. rewrite (step_vis _ _ _ _ _ Ht).
    destruct (exec_op _ _ _ _) as [|x w'] eqn:Hexec; [done|]. cbn [exec_op] in Hexec.
    destruct (fault ε).
    { injection Hexec as <- <-. by apply locked_quit_step. }
    unfold tx_exec in Hexec. rewrite Htx in Hexec.
    destruct (insertable _ _ _); injection Hexec as <- <-; [|by apply locked_quit_step].
    rewrite Hnil. split; cbn [world threads].
    + by exists q, (Some t).
    + apply (threads_update (λ u p, locked_thread u (world c) p)); [done | |].
      * apply (lt_commit _ _ _ q); [done | done | |].
        -- cbn. rewrite lookup_insert_eq, Hpid. done.
        -- unfold holds. cbn. by rewrite Hprod, lookup_singleton_eq.
      * intros u p Hne Hp. apply (locked_thread_stable t u (world c)); try done.
        cbn. by rewrite lookup_insert_ne.
  - (* COMMIT *)
    unfold holds in Hh. rewrite Hprod, lookup_singleton_eq in Hh. injection Hh as <- ->.
    destruct (lock_commit_head req) as (k & Hk & Hnil & Hfail).
    rewrite Hk in Ht. rewrite (step_vis _ _ _ _ _ Ht).
    destruct (exec_op _ _ _ _) as [|x w'] eqn:Hexec; [done|]. cbn [exec_op] in Hexec.
    rewrite Htx in Hexec.
    assert (Hothers : ∀ u p, u ≠ t → locked_thread u (world c) p →
              ∀ w1, txs w1 = delete t (txs (world c)) → locked_thread u w1 p).
    { intros u p Hne Hp w1 Hw1. apply (locked_thread_stable t u (world c)); try done.
      - rewrite Hw1. by rewrite lookup_delete_ne.
      - intros q0. unfold holds. rewrite Hprod, lookup_singleton_eq. by intros [= -> ?]. }
    destruct (fault ε); injection Hexec as <- <-.
    + split; cbn [world threads].
      * exists q, None. cbn. rewrite Hprod, release_singleton. done.
      * apply (threads_update (λ u p, locked_thread u (world c) p));
          [done | by apply lt_closing |].
        intros u p Hne Hp. by apply (Hothers u p).
    + split; cbn [world threads].
      * exists (q - 1), None. unfold successfulOrders. cbn.
        rewrite Hprod, publish_singleton, length_app. cbn.
        unfold successfulOrders in Hq. split_and!; [done | lia | lia].
      * apply (threads_update (λ u p, locked_thread u (world c) p));
          [done | by apply lt_closing |].
        intros u p Hne Hp. by apply (Hothers u p).
Qed.

(** *** The gated strategy *)

Lemma held_nonneg rs : 0 ≤ held rs.
Proof. induction rs as [|[] rs IH]; cbn; lia. Qed.

Lemma held_app (rs : list bool) (r : bool) : held (rs ++ [r]) = held rs + (if r then 1 else 0).
Proof. induction rs as [|r0 rs IH]; cbn; [lia|]. rewrite IH. lia. Qed.

Lemma held_insert (rs : list bool) (t : nat) (r r' : bool) :
  rs !! t = Some r →
  held (<[t := r']> rs) = held rs - (if r then 1 else 0) + (if r' then 1 else 0).
Proof.
  revert t. induction rs as [|r0 rs IH]; intros [|t] Ht; try done.
  - injection Ht as ->. cbn. lia.
  - change (held (r0 :: <[t := r']> rs)
            = held (r0 :: rs) - (if r then 1 else 0) + (if r' then 1 else 0)).
    cbn [held]. rewrite (IH t Ht). lia.
Qed.

Lemma held_lookup (rs : list bool) (t : nat) : rs !! t = Some true → 1 ≤ held rs.
Proof.
  revert t. induction rs as [|r0 rs IH]; intros [|t] Ht; cbn in *; try done.
  - injection Ht as ->. pose proof (held_nonneg rs). lia.
  - specialize (IH t Ht). destruct r0; lia.
Qed.

Lemma threads_update2 (T T' : nat → bool → prog Response → Prop)
    (ts : list (prog Response)) (rs : list bool) t p' r' :
  (∀ u p r, ts !! u = Some p → rs !! u = Some r → T u r p) →
  T' t r' p' →
  (∀ u p r, u ≠ t → T u r p → T' u r p) →
  ∀ u p r, <[t := p']> ts !! u = Some p → <[t := r']> rs !! u = Some r → T' u r p.
Proof.
  intros H Ht Hs u p r Hu Hr.
  apply list_lookup_insert_Some in Hu as [(-> & <- & _) | [Hne Hu]].
  - apply list_lookup_insert_Some in Hr as [(_ & <- & _) | [Hne _]]; done.
  - rewrite list_lookup_insert_ne in Hr by done. eauto.
Qed.

Lemma gated_thread_stable t u w w' r p :
  u ≠ t →
  gated_thread u w r p →
  txs w' !! u = txs w !! u →
  (∀ q, holds u q w → holds u q w') →
  gated_thread u w' r p.
Proof.
  intros Hne Hp Htx Hh.
  destruct Hp; [by apply gt_closing | apply gt_entry | apply gt_eval | apply gt_begin | | | | |].
  - apply gt_update. by rewrite Htx.
  - eapply gt_insert; [done | by rewrite Htx | by apply Hh].
  - by apply gt_insert_miss.
  - eapply gt_commit; [done | by rewrite Htx | by apply Hh].
  - by apply gt_compensate.
Qed.

(** The invariant, from its parts. *)
Lemma gated_inv_intro c rs q l v :
  products (world c) = {[ 1 := {| quantity := q; xlock := l |} ]} →
  q = initialCapacity - successfulOrders (world c) →
  CacheCounter (world c) = Some v → 0 ≤ v → v + held rs ≤ q →
  length rs = length (threads c) →
  (∀ t p r, threads c !! t = Some p → rs !! t = Some r → gated_thread t (world c) r p) →
  gated_inv c.
Proof.
  intros Hprod Hq Hv Hv0 Hsum Hlen Hth. pose proof (held_nonneg rs).
  exists rs. split_and!; [exists q, l; split_and!; [done | done | lia] | done | done |].
  exists v, q. unfold Product_quantity. rewrite Hprod, lookup_singleton_eq. done.
Qed.

Lemma gated_inv_elim c :
  gated_inv c →
  ∃ rs q l v,
    products (world c) = {[ 1 := {| quantity := q; xlock := l |} ]}
    ∧ q = initialCapacity - successfulOrders (world c)
    ∧ CacheCounter (world c) = Some v ∧ 0 ≤ v ∧ v + held rs ≤ q
    ∧ length rs = length (threads c)
    ∧ (∀ t p r, threads c !! t = Some p → rs !! t = Some r →
                gated_thread t (world c) r p).
Proof.
  intros (rs & (q & l & Hprod & Hq & Hq0) & Hlen & Hth & v & q' & Hv & Hq' & Hv0 & Hsum).
  unfold Product_quantity in Hq'. rewrite Hprod, lookup_singleton_eq in Hq'.
  injection Hq' as <-. by exists rs, q, l, v.
Qed.

Lemma gate_eval_head req :
  ∃ k, gate_eval req = Vis (Rdb_Eval luaScript ["product:1:stock"]) k
       ∧ (∀ s, 0 ≤ s → k (s, nil) = gate_begin req)
       ∧ (∀ s, s < 0 → closing (k (s, nil)))
       ∧ (∀ z, closing (k (z, Failed))).
Proof.
  eexists. split; [reflexivity|]. split_and!.
  - intros s Hs. cbn. destruct (s <? 0) eqn:E; [lia | done].
  - intros s Hs. cbn. destruct (s <? 0) eqn:E; [by cbn | lia].
  - intros z. by cbn.
Qed.

Lemma gate_begin_head req :
  ∃ k, gate_begin req = Vis DB_Begin k
       ∧ k nil = gate_update req ∧ compensating (k Failed).
Proof.
  eexists. split; [reflexivity|]. split; [reflexivity|].
  eexists. split; [reflexivity|]. intros x. by cbn.
Qed.

Lemma gate_update_head req :
  ∃ k, gate_update req = Vis (Tx_Exec (UpdateDecrement (ProductID req))) k
       ∧ k nil = gate_insert req ∧ compensating (k Failed).
Proof.
  eexists. split; [reflexivity|]. split; [reflexivity|].
  eexists. split; [reflexivity|]. intros x. by cbn.
Qed.

Lemma gate_insert_head req :
  ∃ k, gate_insert req = Vis (Tx_Exec (InsertOrder (UserID req) (ProductID req))) k
       ∧ k nil = gate_commit req ∧ compensating (k Failed).
Proof.
  eexists. split; [reflexivity|]. split; [reflexivity|].
  eexists. split; [reflexivity|]. intros x. by cbn.
Qed.

Lemma gate_commit_head req :
  ∃ k, gate_commit req = Vis Tx_Commit k ∧ closing (k nil) ∧ compensating (k Failed).
Proof.
  eexists. split; [reflexivity|]. split; [by cbn|].
  eexists. split; [reflexivity|]. intros x. by cbn.
Qed.

(** The invariant after a step of request [t], from what the step did. *)
Lemma gated_step_intro c (rs : list bool) t (r : bool) w' p' (r' : bool) q' l' v' :
  length rs = length (threads c) → rs !! t = Some r →
  (∀ u p r, threads c !! u = Some p → rs !! u = Some r →
            gated_thread u (world c) r p) →
  products w' = {[ 1 := {| quantity := q'; xlock := l' |} ]} →
  q' = initialCapacity - successfulOrders w' →
  CacheCounter w' = Some v' → 0 ≤ v' →
  v' + (held rs - (if r then 1 else 0) + (if r' then 1 else 0)) ≤ q' →
  gated_thread t w' r' p' →
  (∀ u, u ≠ t → txs w' !! u = txs (world c) !! u) →
  (∀ u qq, u ≠ t → holds u qq (world c) → holds u qq w') →
  gated_inv {| world := w'; threads := <[t := p']> (threads c) |}.
Proof.
  intros Hlen Hr Hth Hprod Hq Hv Hv0 Hsum Ht Htx Hh.
  apply (gated_inv_intro _ (<[t := r']> rs) q' l' v'); cbn [world threads]; try done.
  - by rewrite (held_insert _ _ _ _ Hr).
  - by rewrite !length_insert.
  - apply (threads_update2 (λ u r p, gated_thread u (world c) r p)); [done | done |].
    intros u p r0 Hne Hp. apply (gated_thread_stable t u (world c)); auto.
Qed.

Lemma set_rdb_same w : set_rdb (λ _, rdb w) w = w.
Proof. by destruct w. Qed.

Section GatedStep.
Context (c : Config) (t : nat) (ε : env) (rs : list bool) (q : Z) (l : option nat) (v : Z).
Context (Hprod : products (world c) = {[ 1 := {| quantity := q; xlock := l |} ]}).
Context (Hq : q = initialCapacity - successfulOrders (world c)).
Context (Hv : CacheCounter (world c) = Some v) (Hv0 : 0 ≤ v) (Hsum : v + held rs ≤ q).
Context (Hlen : length rs = length (threads c)).
Context (Hth : ∀ u p r, threads c !! u = Some p → rs !! u = Some r →
                        gated_thread u (world c) r p).

Lemma gated_passive_step {X} (e : Op X) k :
  rs !! t = Some false → threads c !! t = Some (Vis e k) → passive e = true →
  (∀ x w', gated_thread t w' false (k x)) →
  gated_inv (step (Step t ε) c).
Proof.
  intros Hr Ht He Hk. rewrite (step_vis _ _ _ _ _ Ht).
  destruct (passive_exec t ε e (world c) q l He Hprod)
    as (x & w' & l' & -> & Hprod' & Hl & Ho & Hrdb & Htx).
  apply (gated_step_intro c rs t false w' (k x) false q l' v); try done.
  - unfold successfulOrders. by rewrite Ho.
  - unfold CacheCounter. by rewrite Hrdb.
  - lia.
  - intros u qq Hne. unfold holds. rewrite Hprod, Hprod', !lookup_singleton_eq.
    intros [= -> ->]. by rewrite (Hl u).
Qed.

(** A step that changes nothing in the world. *)
Lemma gated_still_step (r r' : bool) p' :
  rs !! t = Some r →
  (if r' then 1 else 0) ≤ (if r then 1 else 0) →
  gated_thread t (world c) r' p' →
  gated_inv {| world := world c; threads := <[t := p']> (threads c) |}.
Proof.
  intros Hr Hle Hp'.
  apply (gated_step_intro c rs t r (world c) p' r' q l v); try done. lia.
Qed.

Lemma gated_compensate_step (p' : prog Response) :
  rs !! t = Some true → compensating p' →
  gated_inv {| world := world c; threads := <[t := p']> (threads c) |}.
Proof.
  intros Hr (k & -> & Hk). apply (gated_still_step true true); [done | done |].
  by apply gt_compensate.
Qed.

End GatedStep.

Ltac with_inv lem :=
  match goal with
  | Hprod : products (world ?c) = _, Hq : _ = initialCapacity - _,
    Hv : rdb (world ?c) !! _ = Some _, Hv0 : 0 ≤ _, Hsum : _ + held _ ≤ _,
    Hlen : length _ = length (threads ?c), Hth : ∀ u p r, _ → _ → gated_thread _ _ _ _ |- _ =>
      eapply (lem c); [exact Hprod | exact Hq | exact Hv | exact Hv0 | exact Hsum
                       | exact Hlen | exact Hth | ..]
  end.

Lemma gated_step_cases c t ε (rs : list bool) q l v p r :
  products (world c) = {[ 1 := {| quantity := q; xlock := l |} ]} →
  q = initialCapacity - successfulOrders (world c) →
  CacheCounter (world c) = Some v → 0 ≤ v → v + held rs ≤ q →
  length rs = length (threads c) →
  (∀ u p r, threads c !! u = Some p → rs !! u = Some r →
            gated_thread u (world c) r p) →
  threads c !! t = Some p → rs !! t = Some r → gated_thread t (world c) r p →
  gated_inv (step (Step t ε) c).
Proof.
    intros Hprod Hq Hv Hv0 Hsum Hlen Hth Ht Hr Hp. unfold CacheCounter in Hv.
    pose proof (held_nonneg rs) as Hh0.
    assert (Hinv : gated_inv c) by (by eapply (gated_inv_intro c rs q l v)).
    destruct Hp as [p Hcl | c0 | req | req | req Htx | req q' Hpid Htx Hh | req Hpid
                   | req q' Hpid Htx Hh | k Hk].
    - (* passive operations only *)
      destruct p as [r | X e k]; [by cbn; rewrite Ht|].
      destruct Hcl as [He Hk].
      with_inv gated_passive_step; [done | done | done |].
      intros x w'. apply gt_closing, Hk.
    - (* counting the request *)
      with_inv gated_passive_step; [done | exact Ht | done |].
      intros [] w'. destruct c0 as [req|]; [apply gt_eval | by apply gt_closing].
    - (* the gate *)
      destruct (gate_eval_head req) as (k & Hk & Hpass & Hrefuse & Herr).
      rewrite Hk in Ht. rewrite (step_vis _ _ _ _ _ Ht).
      destruct (exec_op _ _ _ _) as [|x w'] eqn:Hexec; [done|]. cbn [exec_op] in Hexec.
      destruct (fault ε).
      { injection Hexec as <- <-. with_inv gated_still_step; [exact Hr | instantiate (1 := false); done |].
        apply gt_closing, Herr. }
      destruct (luaScript_cases "product:1:stock" (rdb (world c)))
        as [(stock & Hs & Hpos & E) | (_ & E)]; rewrite E in Hexec; cbn in Hexec;
        injection Hexec as <- <-.
      + rewrite Hs in Hv. injection Hv as ->. rewrite Hpass by lia.
        apply (gated_step_intro c rs t false _ _ true q l (v - 1)); try done.
        * unfold CacheCounter. cbn. by rewrite lookup_insert_eq.
        * lia.
        * lia.
        * apply gt_begin.
      + rewrite set_rdb_same.
        with_inv gated_still_step; [exact Hr | instantiate (1 := false); done |].
        apply gt_closing, Hrefuse. lia.
    - (* Begin *)
      destruct (gate_begin_head req) as (k & Hk & Hnil & Hfail).
      rewrite Hk in Ht. rewrite (step_vis _ _ _ _ _ Ht).
      destruct (exec_op _ _ _ _) as [|x w'] eqn:Hexec; [done|]. cbn [exec_op] in Hexec.
      destruct (fault ε); injection Hexec as <- <-.
      { by with_inv gated_compensate_step. }
      rewrite Hnil.
      apply (gated_step_intro c rs t true _ _ true q l v); try done.
      + lia.
      + apply gt_update. cbn. apply lookup_insert_eq.
      + intros u Hne. cbn. by rewrite lookup_insert_ne.
    - (* UPDATE *)
      destruct (gate_update_head req) as (k & Hk & Hnil & Hfail).
      rewrite Hk in Ht. rewrite (step_vis _ _ _ _ _ Ht).
      destruct (exec_op _ _ _ _) as [|x w'] eqn:Hexec; [done|]. cbn [exec_op] in Hexec.
      destruct (fault ε).
      { injection Hexec as <- <-. by with_inv gated_compensate_step. }
      unfold tx_exec, tx_update in Hexec. rewrite Htx, Hprod in Hexec.
      destruct (in_int4 (ProductID req)); cycle 1.
      { injection Hexec as <- <-. by with_inv gated_compensate_step. }
      destruct (decide (ProductID req = 1)) as [Hpid|Hpid]; cycle 1.
      { rewrite lookup_singleton_ne in Hexec by done. injection Hexec as <- <-.
        rewrite Hnil. with_inv gated_still_step; [exact Hr | instantiate (1 := true); done |].
        by apply gt_insert_miss. }
      rewrite Hpid, lookup_singleton_eq in Hexec.
      destruct (held_by_other (Some t) _) eqn:Hheld; [done|].
      unfold tx_view in Hexec. cbn [empty_tx tx_rows tx_orders tx_cleared] in Hexec.
      rewrite lookup_empty in Hexec. cbn [default quantity] in Hexec.
      pose proof (held_lookup _ _ Hr) as Hone.
      rewrite in_int4_stock in Hexec by (unfold successfulOrders in Hq; lia).
      injection Hexec as <- <-. rewrite Hnil.
      apply (gated_step_intro c rs t true _ _ true q (Some t) v); try done.
      + cbn. by rewrite Hprod, insert_singleton_eq.
      + lia.
      + apply (gt_insert _ _ _ q); [done | |].
        * cbn. rewrite lookup_insert_eq, insert_empty. done.
        * unfold holds. cbn. by rewrite Hprod, insert_singleton_eq, lookup_singleton_eq.
      + intros u Hne. cbn. by rewrite lookup_insert_ne.
      + intros u qq Hne. unfold holds. rewrite Hprod, lookup_singleton_eq.
        intros [= -> ->]. cbn in Hheld. by rewrite bool_decide_eq_false_2 in Hheld.
    - (* INSERT, the product's row being locked *)
      unfold holds in Hh. rewrite Hprod, lookup_singleton_eq in Hh. injection Hh as <- ->.
      destruct (gate_insert_head req) as (k & Hk & Hnil & Hfail).
      rewrite Hk in Ht. rewrite (step_vis _ _ _ _ _ Ht).
      destruct (exec_op _ _ _ _) as [|x w'] eqn:Hexec; [done|]. cbn [exec_op] in Hexec.
      destruct (fault ε).
      { injection Hexec as <- <-. by with_inv gated_compensate_step. }
      unfold tx_exec in Hexec. rewrite Htx in Hexec.
      destruct (insertable _ _ _); injection Hexec as <- <-;
        [|by with_inv gated_compensate_step].
      rewrite Hnil.
      apply (gated_step_intro c rs t true _ _ true q (Some t) v); try done.
      + lia.
      + apply (gt_commit _ _ _ q); [done | |].
        * cbn. rewrite lookup_insert_eq, Hpid. done.
        * unfold holds. cbn. by rewrite Hprod, lookup_singleton_eq.
      + intros u Hne. cbn. by rewrite lookup_insert_ne.
    - (* INSERT for a product that is not there *)
      destruct (gate_insert_head req) as (k & Hk & Hnil & Hfail).
      rewrite Hk in Ht. rewrite (step_vis _ _ _ _ _ Ht).
      destruct (exec_op _ _ _ _) as [|x w'] eqn:Hexec; [done|]. cbn [exec_op] in Hexec.
      destruct (fault ε).
      { injection Hexec as <- <-. by with_inv gated_compensate_step. }
      unfold tx_exec, insertable in Hexec. rewrite Hprod in Hexec.
      rewrite lookup_singleton_ne, bool_decide_is_Some_None, !andb_false_r in Hexec by done.
      destruct (txs (world c) !! t); injection Hexec as <- <-;
        by with_inv gated_compensate_step.
    - (* COMMIT *)
      unfold holds in Hh. rewrite Hprod, lookup_singleton_eq in Hh. injection Hh as <- ->.
      destruct (gate_commit_head req) as (k & Hk & Hnil & Hfail).
      rewrite Hk in Ht. rewrite (step_vis _ _ _ _ _ Ht).
      destruct (exec_op _ _ _ _) as [|x w'] eqn:Hexec; [done|]. cbn [exec_op] in Hexec.
      rewrite Htx in Hexec. pose proof (held_lookup _ _ Hr) as Hone.
      destruct (fault ε); injection Hexec as <- <-.
      + destruct Hfail as (k' & -> & Hk').
        apply (gated_step_intro c rs t true _ _ true q None v); try done.
        * cbn. by rewrite Hprod, release_singleton.
        * lia.
        * by apply gt_compensate.
        * intros u Hne. cbn. by rewrite lookup_delete_ne.
        * intros u qq Hne. unfold holds. rewrite Hprod, lookup_singleton_eq.
          by intros [= -> ?].
      + apply (gated_step_intro c rs t true _ _ false (q - 1) None v); try done.
        * cbn. by rewrite Hprod, publish_singleton.
        * unfold successfulOrders. cbn. rewrite length_app. cbn.
          unfold successfulOrders in Hq. lia.
        * lia.
        * by apply gt_closing.
        * intros u Hne. cbn. by rewrite lookup_delete_ne.
        * intros u qq Hne. unfold holds. rewrite Hprod, lookup_singleton_eq.
          by intros [= -> ?].
    - (* the compensating INCR *)
      rewrite (step_vis _ _ _ _ _ Ht).
      destruct (exec_op _ _ _ _) as [|x w'] eqn:Hexec; [done|]. cbn [exec_op] in Hexec.
      destruct (fault ε); injection Hexec as <- <-.
      + with_inv gated_still_step; [exact Hr | instantiate (1 := false); done |]. apply gt_closing, Hk.
      + rewrite Hv. cbn [default].
        apply (gated_step_intro c rs t true _ _ false q l (v + 1)); try done.
        * unfold CacheCounter. cbn. by rewrite lookup_insert_eq.
        * lia.
        * lia.
        * apply gt_closing, Hk.
Qed.

Lemma gated_inv_step c t ε : gated_inv c → gated_inv (step (Step t ε) c).
Proof.
  intros Hinv.
  destruct (gated_inv_elim c Hinv)
    as (rs & q & l & v & Hprod & Hq & Hv & Hv0 & Hsum & Hlen & Hth).
  destruct (threads c !! t) as [p|] eqn:Ht; [|by cbn; rewrite Ht].
  assert (Hrt : is_Some (rs !! t)).
  { apply lookup_lt_is_Some. rewrite Hlen. by eapply lookup_lt_Some. }
  destruct Hrt as [r Hr].
  apply (gated_step_cases c t ε rs q l v p r); eauto.
Qed.

(** *** Arrivals, and whole runs *)

Lemma locked_inv_arrive r b c :
  r ∈ [POST_purchase_postgres; GET_stats] →
  locked_inv c → locked_inv (step (Arrive r b) c).
Proof.
  intros Hr [Hl Hth]. split; [done|]. cbn. intros t p Hp.
  apply lookup_app_Some in Hp as [Hp | [_ Hp]]; [by apply Hth|].
  apply list_lookup_singleton_Some in Hp as [_ <-].
  apply elem_of_cons in Hr as [-> | Hr]; [apply lt_entry|].
  apply list_elem_of_singleton in Hr as ->. apply lt_closing, closing_stats_handler.
Qed.

Lemma gated_inv_arrive r b c :
  r ∈ [POST_purchase_redis; POST_purchase; GET_stats] →
  gated_inv c → gated_inv (step (Arrive r b) c).
Proof.
  intros Hr Hinv.
  destruct (gated_inv_elim c Hinv)
    as (rs & q & l & v & Hprod & Hq & Hv & Hv0 & Hsum & Hlen & Hth).
  apply (gated_inv_intro _ (rs ++ [false]) q l v); cbn [step world threads]; try done.
  - rewrite held_app. lia.
  - rewrite !length_app. cbn. lia.
  - intros t p r0 Hp Hr0.
    apply lookup_app_Some in Hp as [Hp | [Hge Hp]].
    + rewrite lookup_app_l in Hr0 by (rewrite Hlen; by eapply lookup_lt_Some). eauto.
    + rewrite lookup_app_r in Hr0 by lia. rewrite Hlen in Hr0.
      apply list_lookup_singleton_Some in Hp as [Hz <-]. rewrite Hz in Hr0.
      injection Hr0 as <-.
      apply elem_of_cons in Hr as [-> | Hr]; [apply gt_entry|].
      apply elem_of_cons in Hr as [-> | Hr]; [apply gt_entry|].
      apply list_elem_of_singleton in Hr as ->. apply gt_closing, closing_stats_handler.
Qed.

Lemma inv_run (I : Config → Prop) (rs : list Route) :
  (∀ r b c, r ∈ rs → I c → I (step (Arrive r b) c)) →
  (∀ c t ε, I c → I (step (Step t ε) c)) →
  ∀ evs c, only_routes rs evs = true → I c → I (run evs c).
Proof.
  intros Harr Hstep. induction evs as [|ev evs IH]; intros c Hev Hc; [done|].
  cbn in Hev. apply andb_true_iff in Hev as [Hhd Htl]. cbn. apply IH; [done|].
  destruct ev as [r b | t ε]; [|by apply Hstep].
  apply Harr; [|done]. by apply bool_decide_eq_true in Hhd.
Qed.

Lemma locked_inv_reset : locked_inv reset_config.
Proof. split; [by exists initialCapacity, None | by intros t p]. Qed.

Lemma gated_inv_reset : gated_inv reset_config.
Proof.
  apply (gated_inv_intro _ [] initialCapacity None initialCapacity); try done.
Qed.

(** C1.  Start from the reset state and let any number of requests arrive
    on the route of the locked strategy, or any number on the routes of the
    gated strategy (stats requests may come in between); let them advance in
    any interleaving, with any faults.  Then in every state reached the
    committed quantity of the product is the capacity minus the number of
    order rows, the order rows are at most the capacity, the quantity is not
    negative, and nothing is oversold. *)
Theorem locked_and_gated_never_oversell evs :
  only_routes [POST_purchase_postgres; GET_stats] evs = true
  ∨ only_routes [POST_purchase_redis; POST_purchase; GET_stats] evs = true →
  ∃ q,
    Product_quantity (world (run evs reset_config)) = Some q
    ∧ q = initialCapacity - successfulOrders (world (run evs reset_config))
    ∧ successfulOrders (world (run evs reset_config)) ≤ initialCapacity
    ∧ 0 ≤ q
    ∧ oversold (world (run evs reset_config)) = 0.
Proof.
  intros Hev.
  assert (ledger_ok (world (run evs reset_config))) as (q & l & Hprod & Hq & Hq0).
  { destruct Hev as [Hev | Hev].
    - destruct (inv_run locked_inv _ locked_inv_arrive locked_inv_step
                  evs reset_config Hev locked_inv_reset) as [H _]. done.
    - destruct (inv_run gated_inv _ gated_inv_arrive gated_inv_step
                  evs reset_config Hev gated_inv_reset) as (rs & H & _). done. }
  exists q. unfold Product_quantity, oversold. rewrite Hprod, lookup_singleton_eq.
  split_and!; [done | done | lia | done |].
  destruct (initialCapacity <? _) eqn:E; [lia | done].
Qed.

Lemma locked_and_gated_never_oversell_witness :
  only_routes [POST_purchase_postgres; GET_stats] (locked_one_by_one 102) = true
  ∧ successfulOrders (world (run (locked_one_by_one 102) reset_config)) = 100
  ∧ ∃ q,
      Product_quantity (world (run (locked_one_by_one 102) reset_config)) = Some q
      ∧ q = initialCapacity - successfulOrders (world (run (locked_one_by_one 102) reset_config))
      ∧ successfulOrders (world (run (locked_one_by_one 102) reset_config)) ≤ initialCapacity
      ∧ 0 ≤ q
      ∧ oversold (world (run (locked_one_by_one 102) reset_config)) = 0.
Proof.
  split; [reflexivity|]. split; [by vm_compute|].
  apply locked_and_gated_never_oversell. left. reflexivity.
Defined.

(** A hundred and two buyers through the gate, one by one: a hundred
    orders, the counter and the quantity at zero, two refusals. *)
Example gated_sells_out :
  successfulOrders (world (run (gated_one_by_one 102) reset_config)) = 100
  ∧ Product_quantity (world (run (gated_one_by_one 102) reset_config)) = Some 0
  ∧ CacheCounter (world (run (gated_one_by_one 102) reset_config)) = Some 0
  ∧ failed (stats (world (run (gated_one_by_one 102) reset_config))) = 2.
Proof. by vm_compute. Qed.

(** The two strategies do not protect each other: the locked one does not
    touch the cache counter, so after it has sold all hundred items the gate
    still lets a request through, and the gated strategy decrements without
    looking at the quantity. *)
Remark mixing_locked_and_gated_oversells :
  successfulOrders (world (run locked_then_gated reset_config)) = 101
  ∧ Product_quantity (world (run locked_then_gated reset_config)) = Some (-1)
  ∧ CacheCounter (world (run locked_then_gated reset_config)) = Some 99.
Proof. by vm_compute. Qed.

(** ** The unprotected strategy oversells (C2) *)

Lemma run_app evs1 evs2 c : run (evs1 ++ evs2) c = run evs2 (run evs1 c).
Proof. apply foldl_app. Qed.

Lemma run_cons ev evs c : run (ev :: evs) c = run evs (step ev c).
Proof. done. Qed.

(** One round of a lock step: every request does its next operation, in
    order; request [i] takes the world from [W i] to [W (S i)]. *)
Lemma run_round (P P' : nat → prog Response) (W : nat → World) (n : nat) :
  (∀ i, (i < n)%nat →
     ∃ X (e : Op X) k x,
       P i = Vis e k ∧ exec_op i calm e (W i) = Done x (W (S i)) ∧ k x = P' i) →
  run (round 0 n) {| world := W 0%nat; threads := P <$> seq 0 n |}
  = {| world := W n; threads := P' <$> seq 0 n |}.
Proof.
  intros Hstep.
  enough (∀ j, (j ≤ n)%nat →
            run (round 0 j) {| world := W 0%nat; threads := P <$> seq 0 n |}
            = {| world := W j;
                 threads := (P' <$> seq 0 j) ++ (P <$> seq j (n - j)) |}) as H.
  { rewrite (H n) by lia. by rewrite Nat.sub_diag, app_nil_r. }
  induction j as [|j IH]; intros Hj.
  - cbn. by rewrite Nat.sub_0_r.
  - unfold round. rewrite seq_S, Nat.add_0_l, fmap_app, run_app.
    cbn [fmap list_fmap run foldl].
    fold (round 0 j). rewrite IH by lia.
    destruct (Hstep j) as (X & e & k & x & HP & Hexec & Hk); [lia|].
    replace (n - j)%nat with (S (n - S j)) by lia. cbn [seq fmap list_fmap].
    assert (Hlen : length (P' <$> seq 0 j) = j) by (by rewrite length_fmap, length_seq).
    erewrite step_vis; cycle 1.
    { cbn [threads]. rewrite lookup_app_r by lia. rewrite Hlen, Nat.sub_diag. cbn.
      by rewrite HP. }
    cbn [world]. rewrite Hexec. f_equal. cbn [threads].
    rewrite insert_app_r_alt by lia. rewrite Hlen, Nat.sub_diag. cbn.
    rewrite Hk, fmap_app, <- app_assoc. done.
Qed.

Lemma run_arrivals n :
  run (arrivals 0 n) reset_config = {| world := race_world 0 0 0 0; threads := racer 0 <$> seq 0 n |}.
Proof.
  enough (∀ m ts, run (arrivals m n) {| world := reset_world; threads := ts |}
                  = {| world := reset_world; threads := ts ++ (racer 0 <$> seq m n) |}) as H.
  { apply (H 0%nat []). }
  induction n as [|n IH]; intros m ts; [cbn; by rewrite app_nil_r|].
  change (arrivals m (S n))
    with (Arrive POST_purchase_naive (buyer m) :: arrivals (S m) n).
  rewrite run_cons. cbn [step world threads]. rewrite IH, <- app_assoc. done.
Qed.

Lemma wrap64_small z : -2 ^ 63 ≤ z < 2 ^ 63 → wrap64 z = z.
Proof. intros Hz. unfold wrap64. rewrite Z.mod_small; lia. Qed.

(** [n] requests racing in lock step from the reset state all succeed. *)
Lemma run_lockstep n :
  Z.of_nat n ≤ 2 ^ 31 →
  run (lockstep 0 n) reset_config
  = {| world := race_world n n n n;
       threads := (λ _, Ret (JSON StatusOK (JPurchase "naive" 0))) <$> seq 0 n |}.
Proof.
  intros Hn. unfold lockstep. rewrite run_app, run_arrivals. cbn [replicate concat].
  rewrite app_nil_r, !run_app.
  (* the request is counted *)
  rewrite (run_round (racer 0) (racer 1) (λ i, race_world i 0 0 0)); cycle 1.
  { intros i Hi. eexists _, _, _, _. split; [reflexivity|]. split; [|reflexivity].
    unfold race_world. cbn [exec_op]. unfold set_stats.
    cbn [stats store load products orders txs rdb total_requests
         success failed oversells total_latency_ms].
    rewrite wrap64_small by lia. do 3 f_equal. lia. }
  (* the stock is read: 100 for everyone *)
  rewrite (run_round (racer 1) (racer 2) (λ _, race_world n 0 0 0)); cycle 1.
  { intros i Hi. eexists _, _, _, (100, nil). split; [reflexivity|]. split; [|reflexivity].
    cbn. by rewrite lookup_singleton_eq. }
  (* the sleep *)
  rewrite (run_round (racer 2) (racer 3) (λ _, race_world n 0 0 0)); cycle 1.
  { intros i Hi. eexists _, _, _, _. split; [reflexivity|]. split; reflexivity. }
  (* the decrement, whatever the stock is by now *)
  rewrite (run_round (racer 3) (racer 4) (λ i, race_world n i 0 0)); cycle 1.
  { intros i Hi. eexists _, _, _, nil. split; [reflexivity|]. split; [|reflexivity].
    cbn [exec_op calm fault db_exec ProductID UserID]. unfold db_update, race_world.
    cbn [products].
    rewrite in_int4_1, lookup_singleton_eq. cbn [held_by_other xlock quantity].
    replace (in_int4 (initialCapacity - Z.of_nat i - 1)) with true; cycle 1.
    { symmetry. unfold in_int4, int4_min, int4_max, initialCapacity.
      apply andb_true_iff. split; apply Z.leb_le; lia. }
    unfold set_products. cbn. rewrite insert_singleton_eq. do 4 f_equal. lia. }
  (* the order *)
  rewrite (run_round (racer 4) (racer 5) (λ i, race_world n n i 0)); cycle 1.
  { intros i Hi. eexists _, _, _, nil. split; [reflexivity|]. split; [|reflexivity].
    cbn [exec_op calm fault db_exec ProductID UserID]. unfold insertable, race_world.
    cbn [products].
    rewrite in_int4_1, lookup_singleton_eq, bool_decide_is_Some_Some.
    replace (in_int4 (Z.of_nat i)) with true; cycle 1.
    { symmetry. unfold in_int4, int4_min, int4_max.
      apply andb_true_iff. split; apply Z.leb_le; lia. }
    unfold set_orders. cbn [andb orders products txs rdb stats].
    by rewrite seq_S, fmap_app. }
  (* the success is counted *)
  rewrite (run_round (racer 5) (racer 6) (λ i, race_world n n n i)); cycle 1.
  { intros i Hi. eexists _, _, _, _. split; [reflexivity|]. split; [|reflexivity].
    unfold race_world. cbn [exec_op]. unfold set_stats.
    cbn [stats store load products orders txs rdb total_requests
         success failed oversells total_latency_ms].
    rewrite wrap64_small by lia. do 3 f_equal. lia. }
  (* the latency is read, added, read again *)
  rewrite (run_round (racer 6) (racer 7) (λ _, race_world n n n n)); cycle 1.
  { intros i Hi. eexists _, _, _, 0. split; [reflexivity|]. split; reflexivity. }
  rewrite (run_round (racer 7) (racer 8) (λ _, race_world n n n n)); cycle 1.
  { intros i Hi. eexists _, _, _, _. split; [reflexivity|]. split; reflexivity. }
  rewrite (run_round (racer 8) (racer 9) (λ _, race_world n n n n)); cycle 1.
  { intros i Hi. eexists _, _, _, 0. split; [reflexivity|]. split; reflexivity. }
  done.
Qed.

Lemma only_routes_lockstep n : only_routes [POST_purchase_naive] (lockstep 0 n) = true.
Proof.
  assert (Hround : only_routes [POST_purchase_naive] (round 0 n) = true).
  { apply forallb_forall. intros ev Hev%list_elem_of_In.
    apply list_elem_of_fmap in Hev as (i & -> & _). done. }
  unfold lockstep, only_routes. rewrite forallb_app. apply andb_true_iff. split.
  - apply forallb_forall. intros ev Hev%list_elem_of_In.
    apply list_elem_of_fmap in Hev as (i & -> & _). done.
  - generalize 9%nat. intros k. induction k as [|k IH]; [done|].
    cbn [replicate concat]. rewrite forallb_app. apply andb_true_iff. by split.
Qed.

(** C2.  With two requests in flight at most and no fault, the unprotected
    strategy can sell the last item twice: 101 orders for a capacity of 100,
    quantity -1.  And the oversell does not hang on a lucky interleaving:
    whenever more requests than the capacity have all read the stock before
    any of them writes (what the sleep between read and write brings about),
    every one of them succeeds, so [n] such requests leave [n] orders, a
    quantity of [100 - n] and an oversell of [n - 100]. *)
Theorem naive_oversells :
  (only_routes [POST_purchase_naive] last_item_race = true
   ∧ no_faults last_item_race = true
   ∧ peak_in_flight last_item_race reset_config = 2%nat
   ∧ successfulOrders (world (run last_item_race reset_config)) = 101
   ∧ Product_quantity (world (run last_item_race reset_config)) = Some (-1)
   ∧ oversold (world (run last_item_race reset_config)) = 1)
  ∧ ∀ n : nat,
      initialCapacity < Z.of_nat n ≤ 2 ^ 31 →
      only_routes [POST_purchase_naive] (lockstep 0 n) = true
      ∧ successfulOrders (world (run (lockstep 0 n) reset_config)) = Z.of_nat n
      ∧ Product_quantity (world (run (lockstep 0 n) reset_config))
        = Some (initialCapacity - Z.of_nat n)
      ∧ oversold (world (run (lockstep 0 n) reset_config))
        = Z.of_nat n - initialCapacity
      ∧ initialCapacity < successfulOrders (world (run (lockstep 0 n) reset_config)).
Proof.
  split; [by vm_compute|].
  intros n Hn. rewrite run_lockstep by lia. cbn [world].
  assert (Ho : successfulOrders (race_world n n n n) = Z.of_nat n).
  { unfold successfulOrders. cbn. by rewrite length_fmap, length_seq. }
  unfold oversold. rewrite Ho. split_and!.
  - apply only_routes_lockstep.
  - done.
  - unfold Product_quantity. cbn. by rewrite lookup_singleton_eq.
  - destruct (initialCapacity <? Z.of_nat n) eqn:E; [done | lia].
  - lia.
Qed.

Lemma naive_oversells_witness :
  initialCapacity < Z.of_nat 500 ≤ 2 ^ 31
  ∧ successfulOrders (world (run (lockstep 0 500) reset_config)) = 500
  ∧ Product_quantity (world (run (lockstep 0 500) reset_config)) = Some (-400)
  ∧ oversold (world (run (lockstep 0 500) reset_config)) = 400.
Proof.
  assert (H : initialCapacity < Z.of_nat 500 ≤ 2 ^ 31) by (unfold initialCapacity; lia).
  split; [exact H|].
  destruct naive_oversells as [_ Hall].
  destruct (Hall 500%nat H) as (_ & Ho & Hq & Hov & _).
  split_and!; [exact Ho | exact Hq | exact Hov].
Defined.
